(** * cof: remote synchronisation, packet codec and server dispatch

    A shallow embedding of [src/cof/remote.py] (the graph synchroniser:
    [_fetch_objects_recursive], [_fetch_tree_recursive], [_matches_filter],
    [clone_repository], [pull_from_remote]) and of [src/cof/server.py]
    ([_process_packet]), together with a model of the packet codec of
    [cof/network.py], whose source is not part of [src/] and is modelled
    from the specification.

    Also embedded: the push path of remote.py ([_get_objects_to_push],
    [_get_tree_objects], [push_to_remote]), the remotes registry
    ([RemoteManager]) and [_handle_packet] of server.py.

    Layout: Part I holds every definition, Part II the lemmas. *)

From Stdlib Require Import ZArith Ascii String List Bool Lia.
From Stdlib Require Import Strings.Byte.
From stdpp Require Import base decidable option list strings pretty gmap.

Local Open Scope string_scope.
Local Open Scope list_scope.

(* ===================================================================== *)
(** * Part I — definitions                                                *)
(* ===================================================================== *)

(** ** Python string primitives used by [_matches_filter] *)

Definition truthy_str (s : string) : bool :=
  match s with EmptyString => false | String _ _ => true end.

(** [x.startswith(p)] *)
Fixpoint startswith (p x : string) : bool :=
  match p, x with
  | EmptyString, _ => true
  | String a p', String b x' => if Ascii.eqb a b then startswith p' x' else false
  | String _ _, EmptyString => false
  end.

(** [s.lstrip('/')] *)
Fixpoint lstrip_slash (s : string) : string :=
  match s with
  | String c s' => if Ascii.eqb c "/" then lstrip_slash s' else s
  | EmptyString => EmptyString
  end.

(** [s.rstrip('/')]: a slash is dropped when everything after it is
    dropped as well. *)
Fixpoint rstrip_slash (s : string) : string :=
  match s with
  | EmptyString => EmptyString
  | String c s' =>
      match rstrip_slash s' with
      | EmptyString => if Ascii.eqb c "/" then EmptyString else String c EmptyString
      | r => String c r
      end
  end.

(** ['**' in s] *)
Fixpoint has_star2 (s : string) : bool :=
  match s with
  | EmptyString => false
  | String a t =>
      match t with
      | String b _ => (Ascii.eqb a "*" && Ascii.eqb b "*") || has_star2 t
      | EmptyString => false
      end
  end.

(** [s.split('**')]: the pieces between the non-overlapping occurrences of
    ['**'], scanned from the left; [cur] is the piece being read. *)
Fixpoint split_star2_from (cur s : string) : list string :=
  match s with
  | EmptyString => [cur]
  | String a t =>
      match t with
      | String b t' =>
          if Ascii.eqb a "*" && Ascii.eqb b "*"
          then cur :: split_star2_from EmptyString t'
          else split_star2_from (cur +:+ String a EmptyString) t
      | EmptyString => [cur +:+ String a EmptyString]
      end
  end.

Definition split_star2 (s : string) : list string := split_star2_from EmptyString s.

(** ** Glob matching

    [fnmatch.fnmatch] belongs to the Python standard library.  The
    general results take it as a parameter; [glob] is its behaviour on
    POSIX for patterns made of literal characters, [?] and [*] (bracket
    expressions are not modelled), and is used on concrete inputs. *)
Fixpoint glob (pat : string) : string -> bool :=
  match pat with
  | EmptyString => fun s => negb (truthy_str s)
  | String c pat' =>
      if Ascii.eqb c "*" then
        fix star (s : string) : bool :=
          glob pat' s || match s with
                         | EmptyString => false
                         | String _ s' => star s'
                         end
      else if Ascii.eqb c "?" then
        fun s => match s with
                 | EmptyString => false
                 | String _ s' => glob pat' s'
                 end
      else
        fun s => match s with
                 | EmptyString => false
                 | String d s' => Ascii.eqb c d && glob pat' s'
                 end
  end.

(** [fnmatch.fnmatch(path, pattern)] with the arguments in Python's order. *)
Definition fnmatch_glob (path pattern : string) : bool := glob pattern path.

Section Filter.

Variable fnmatch : string -> string -> bool.

(** [RemoteOperations._matches_filter] (remote.py, lines 268-282). *)
Definition _matches_filter (path filter_pattern : string) : bool :=
  if has_star2 filter_pattern then
    match split_star2 filter_pattern with
    | [prefix; suffix] =>
        if truthy_str prefix && negb (startswith (rstrip_slash prefix) path)
        then false
        else if truthy_str suffix
             then fnmatch path ("*" +:+ lstrip_slash suffix)
             else true
    | _ => fnmatch path filter_pattern
    end
  else fnmatch path filter_pattern.

End Filter.

(** The filter grammar as the specification words it: the pattern is cut
    at the first ['**'] ([str.partition]) into a prefix and a suffix. *)
Fixpoint partition_star2_from (cur s : string) : option (string * string) :=
  match s with
  | EmptyString => None
  | String a t =>
      match t with
      | String b t' =>
          if Ascii.eqb a "*" && Ascii.eqb b "*"
          then Some (cur, t')
          else partition_star2_from (cur +:+ String a EmptyString) t
      | EmptyString => None
      end
  end.

Definition partition_star2 (s : string) : option (string * string) :=
  partition_star2_from EmptyString s.

Definition matches_filter_spec (fnmatch : string -> string -> bool)
    (path filter_pattern : string) : bool :=
  match partition_star2 filter_pattern with
  | Some (prefix, suffix) =>
      startswith (rstrip_slash prefix) path
      && (if truthy_str suffix
          then fnmatch path ("*" +:+ lstrip_slash suffix)
          else true)
  | None => fnmatch path filter_pattern
  end.

(** [os.path.join(a, b)] on POSIX, for two components. *)
Definition ends_with_slash (s : string) : bool :=
  match String.get (String.length s - 1) s with
  | Some c => Ascii.eqb c "/"
  | None => false
  end.

Definition os_path_join (a b : string) : string :=
  if startswith "/" b then b
  else if negb (truthy_str a) || ends_with_slash a then a +:+ b
  else a +:+ "/" +:+ b.

(** ** Objects, effects and the synchroniser's state *)

(** Python [bytes]. *)
Definition bytes : Type := list byte.

(** A tree entry, [{kind: file|dir, hash}]. *)
Inductive entry_kind : Type := file | dir.

Record entry_data : Type := EntryData {
  kind : entry_kind;
  hash : string
}.

(** A decoded object.  The synchroniser works on the dictionaries that
    [json.loads] returns and looks only at four keys; each field is
    [None] when the key is absent.  The value under ["parent"] is nullable
    ([Some None] is JSON [null]); the other values, when present, have the
    type the object schema gives them. *)
Record obj_dict : Type := ObjDict {
  parent : option (option string);
  tree_root : option string;
  entries : option (list (string * entry_data));
  block_hashes : option (list string)
}.

(** The place in remote.py that issues a [request_object]: line 190 (with
    the [current_depth] of the call), line 218 or line 240. *)
Inductive site : Type :=
| AtCommit (current_depth : Z)
| AtTree
| AtBlob.

(** Observable effects, in the order they happen. *)
Inductive event : Type :=
| Handshake (ok : bool)
| RequestRefs (refs : list (string * string))
| RequestObject (s : site) (h : string) (reply : option bytes)
| RequestBlock (h : string) (reply : option bytes)
| SaveObject (h : string) (o : obj_dict)
| StoreBlock (data : bytes) (commit_seq : Z) (stored_hash : string)
| WriteRef (ref_name commit_hash : string)
| WriteHead (content : string)
| RestoreWorkingTree
| Echo (msg : string).

(** Everything outside remote.py.  The client's replies may depend on the
    whole history, so a request may succeed once and fail later. *)
Record world : Type := World {
  handshake : list event -> bool;
  request_refs : list event -> list (string * string);
  request_object : list event -> string -> option bytes;
  request_block : list event -> string -> option bytes;
  json_loads : bytes -> option obj_dict;
  store_block : bytes -> Z -> string;
  fnmatch : string -> string -> bool;
  get_remote : string -> option string;
  _get_head_commit : option string;
  target_dir_not_empty : bool;
  config_loaded : bool
}.

Record state : Type := State {
  fetched : gset string;
  trace : list event
}.

Inductive exn : Type :=
| ClickException (msg : string)
| JSONDecodeError.

Definition str_exn (e : exn) : string :=
  match e with
  | ClickException msg => msg
  | JSONDecodeError => "JSONDecodeError"
  end.

(** A call returns, raises, or is cut short by the fuel of the model. *)
Inductive outcome (A : Type) : Type :=
| Returned (a : A)
| Raised (e : exn)
| OutOfFuel.
Arguments Returned {A} a.
Arguments Raised {A} e.
Arguments OutOfFuel {A}.

Definition M (A : Type) : Type := state -> outcome A * state.

Definition ret {A} (a : A) : M A := fun st => (Returned a, st).
Definition raise {A} (e : exn) : M A := fun st => (Raised e, st).
Definition out_of_fuel {A} : M A := fun st => (OutOfFuel, st).

Definition bind {A B} (m : M A) (k : A -> M B) : M B :=
  fun st =>
    match m st with
    | (Returned a, st') => k a st'
    | (Raised e, st') => (Raised e, st')
    | (OutOfFuel, st') => (OutOfFuel, st')
    end.

Notation "x <- m ;; k" := (bind m (fun x => k))
  (at level 100, m at next level, right associativity).
Notation "m ;;; k" := (bind m (fun _ => k))
  (at level 100, right associativity).

Definition emit (e : event) : M unit :=
  fun st => (Returned tt, State (fetched st) (trace st ++ [e])).
Definition get_trace : M (list event) := fun st => (Returned (trace st), st).
Definition is_fetched (h : string) : M bool :=
  fun st => (Returned (bool_decide (h ∈ fetched st)), st).
Definition fetched_add (h : string) : M unit :=
  fun st => (Returned tt, State ({[h]} ∪ fetched st) (trace st)).
Definition fetched_new : M unit :=
  fun st => (Returned tt, State ∅ (trace st)).

(** [for x in xs: body(x)] *)
Fixpoint for_each {A} (xs : list A) (body : A -> M unit) : M unit :=
  match xs with
  | [] => ret tt
  | x :: xs' => body x ;;; for_each xs' body
  end.

(** [try: m  except Exception as e: handler(e)] *)
Definition try_except {A} (m : M A) (handler : exn -> M A) : M A :=
  fun st =>
    match m st with
    | (Raised e, st') => handler e st'
    | r => r
    end.

(** Python truthiness of an [Optional[bytes]]: [None] and [b''] are false. *)
Definition truthy_bytes (r : option bytes) : option bytes :=
  match r with
  | Some (b :: bs) => Some (b :: bs)
  | _ => None
  end.

Definition truthy_opt_str (r : option string) : option string :=
  match r with
  | Some s => if truthy_str s then Some s else None
  | None => None
  end.

(** [d.get(k)] on a dictionary kept as an association list. *)
Fixpoint dict_get (k : string) (d : list (string * string)) : option string :=
  match d with
  | [] => None
  | (k', v) :: d' => if String.eqb k k' then Some v else dict_get k d'
  end.

Section Remote.

Variable w : world.

Definition client_request_object (s : site) (h : string) : M (option bytes) :=
  tr <- get_trace ;;
  let reply := request_object w tr h in
  emit (RequestObject s h reply) ;;;
  ret reply.

Definition client_request_block (h : string) : M (option bytes) :=
  tr <- get_trace ;;
  let reply := request_block w tr h in
  emit (RequestBlock h reply) ;;;
  ret reply.

Definition loads (data : bytes) : M obj_dict :=
  match json_loads w data with
  | Some o => ret o
  | None => raise JSONDecodeError
  end.

(** remote.py lines 252-266: one iteration of the loop over
    [blob_dict["block_hashes"]]. *)
Definition fetch_block (block_hash : string) : M unit :=
  seen <- is_fetched block_hash ;;
  if seen then ret tt
  else
    block_data <- client_request_block block_hash ;;
    match truthy_bytes block_data with
    | None => raise (ClickException ("Failed to fetch block " +:+ block_hash))
    | Some data =>
        fetched_add block_hash ;;;
        let commit_seq := 0%Z in
        let stored_hash := store_block w data commit_seq in
        emit (StoreBlock data commit_seq stored_hash) ;;;
        if negb (String.eqb stored_hash block_hash)
        then emit (Echo ("Warning: Block hash mismatch: " +:+ stored_hash
                           +:+ " != " +:+ block_hash))
        else ret tt
    end.

(** remote.py lines 231-266: one iteration of the loop over
    [tree_dict["entries"].items()]. *)
Definition fetch_entry (path_filter : option string) (current_path : string)
    (entry : string * entry_data) : M unit :=
  let '(entry_name, entry_data) := entry in
  let entry_path :=
    if truthy_str current_path then os_path_join current_path entry_name
    else entry_name in
  let skip :=
    match truthy_opt_str path_filter with
    | Some pat => negb (_matches_filter (fnmatch w) entry_path pat)
    | None => false
    end in
  if skip then ret tt
  else
    let blob_hash := hash entry_data in
    seen <- is_fetched blob_hash ;;
    if seen then ret tt
    else
      blob_data <- client_request_object AtBlob blob_hash ;;
      match truthy_bytes blob_data with
      | None => raise (ClickException ("Failed to fetch blob " +:+ blob_hash))
      | Some data =>
          fetched_add blob_hash ;;;
          blob_dict <- loads data ;;
          emit (SaveObject blob_hash blob_dict) ;;;
          match block_hashes blob_dict with
          | Some hs => for_each hs fetch_block
          | None => ret tt
          end
      end.

(** [RemoteOperations._fetch_tree_recursive] (remote.py, lines 210-266). *)
Definition _fetch_tree_recursive (tree_hash : string)
    (path_filter : option string) (current_path : string) : M unit :=
  seen <- is_fetched tree_hash ;;
  if seen then ret tt
  else
    obj_data <- client_request_object AtTree tree_hash ;;
    match truthy_bytes obj_data with
    | None => raise (ClickException ("Failed to fetch tree " +:+ tree_hash))
    | Some data =>
        fetched_add tree_hash ;;;
        tree_dict <- loads data ;;
        emit (SaveObject tree_hash tree_dict) ;;;
        match entries tree_dict with
        | Some es => for_each es (fetch_entry path_filter current_path)
        | None => ret tt
        end
    end.

(** [obj_dict["parent"]] when ["parent" in obj_dict and obj_dict["parent"]]. *)
Definition truthy_parent (o : obj_dict) : option string :=
  match parent o with
  | Some p => truthy_opt_str p
  | None => None
  end.

(** [depth is None or current_depth < depth - 1] *)
Definition within_depth (depth : option Z) (current_depth : Z) : bool :=
  match depth with
  | None => true
  | Some d => (current_depth <? d - 1)%Z
  end.

(** [RemoteOperations._fetch_objects_recursive] (remote.py, lines 176-208).
    The [fetched] set of the source is the [fetched] component of the
    state; [fuel] bounds the depth of the recursion along [parent]. *)
Fixpoint _fetch_objects_recursive (fuel : nat) (object_hash : string)
    (depth : option Z) (current_depth : Z) (path_filter : option string)
    : M unit :=
  match fuel with
  | O => out_of_fuel
  | S fuel' =>
      seen <- is_fetched object_hash ;;
      if seen then ret tt
      else
        fetched_add object_hash ;;;
        obj_data <- client_request_object (AtCommit current_depth) object_hash ;;
        match truthy_bytes obj_data with
        | None =>
            raise (ClickException ("Failed to fetch object " +:+ object_hash))
        | Some data =>
            obj_dict <- loads data ;;
            emit (SaveObject object_hash obj_dict) ;;;
            match truthy_parent obj_dict with
            | Some p =>
                if within_depth depth current_depth
                then _fetch_objects_recursive fuel' p depth
                       (current_depth + 1)%Z path_filter
                else ret tt
            | None => ret tt
            end ;;;
            match tree_root obj_dict with
            | Some t => _fetch_tree_recursive t path_filter ""
            | None => ret tt
            end
        end
  end.

(** The rest of [_fetch_objects_recursive] once the bytes of its commit
    have arrived (remote.py, lines 195-208), cut in named parts for the
    lemmas of Part II; [fuel] is the fuel of the call on the parent. *)
Definition parent_step (fuel : nat) (obj_dict : obj_dict) (depth : option Z)
    (current_depth : Z) (path_filter : option string) : M unit :=
  match truthy_parent obj_dict with
  | Some p =>
      if within_depth depth current_depth
      then _fetch_objects_recursive fuel p depth (current_depth + 1)%Z
             path_filter
      else ret tt
  | None => ret tt
  end.

Definition tree_step (obj_dict : obj_dict) (path_filter : option string)
    : M unit :=
  match tree_root obj_dict with
  | Some t => _fetch_tree_recursive t path_filter ""
  | None => ret tt
  end.

Definition commit_received (fuel : nat) (object_hash : string)
    (depth : option Z) (current_depth : Z) (path_filter : option string)
    (data : bytes) : M unit :=
  obj_dict <- loads data ;;
  emit (SaveObject object_hash obj_dict) ;;;
  parent_step fuel obj_dict depth current_depth path_filter ;;;
  tree_step obj_dict path_filter.

(** The preamble shared by clone and pull: [client.handshake(remote)] and
    [client.request_refs(remote)]. *)
Definition client_handshake : M bool :=
  tr <- get_trace ;;
  let ok := handshake w tr in
  emit (Handshake ok) ;;;
  ret ok.

Definition client_request_refs : M (list (string * string)) :=
  tr <- get_trace ;;
  let refs := request_refs w tr in
  emit (RequestRefs refs) ;;;
  ret refs.

(** [if depth:] on an [Optional[int]]. *)
Definition truthy_depth (depth : option Z) : option Z :=
  match depth with
  | Some d => if (d =? 0)%Z then None else Some d
  | None => None
  end.

Definition clone_info (url target_dir : string) (depth : option Z)
    (path_filter : option string) : string :=
  "Cloned repository from " +:+ url +:+ " to " +:+ target_dir
  +:+ match truthy_depth depth with
      | Some d => " (shallow clone, depth=" +:+ pretty d +:+ ")"
      | None => ""
      end
  +:+ match truthy_opt_str path_filter with
      | Some f => " (filtered: " +:+ f +:+ ")"
      | None => ""
      end.

(** [RemoteOperations.clone_repository] (remote.py, lines 98-174), from
    the check of the target directory on.  Creating and initialising the
    target repository belongs to [cof.main]. *)
Definition clone_repository (fuel : nat) (url target_dir : string)
    (depth : option Z) (path_filter : option string) : M bool :=
  try_except
    (if target_dir_not_empty w
     then raise (ClickException
                   ("Target directory '" +:+ target_dir +:+ "' is not empty."))
     else if negb (config_loaded w)
     then raise (ClickException "Repository configuration not loaded.")
     else
       ok <- client_handshake ;;
       if negb ok
       then raise (ClickException "Failed to connect to remote repository.")
       else
         refs <- client_request_refs ;;
         match refs with
         | [] => raise (ClickException "No refs found on remote repository.")
         | _ :: _ =>
             match truthy_opt_str (dict_get "main" refs) with
             | None =>
                 raise (ClickException "Remote repository has no main branch.")
             | Some main_commit =>
                 fetched_new ;;;
                 _fetch_objects_recursive fuel main_commit depth 0%Z path_filter ;;;
                 for_each refs
                   (fun ref => emit (WriteRef (fst ref) (snd ref))) ;;;
                 emit (WriteHead "ref: refs/heads/main") ;;;
                 emit RestoreWorkingTree ;;;
                 emit (Echo (clone_info url target_dir depth path_filter)) ;;;
                 ret true
             end
         end)
    (fun e => emit (Echo ("Clone failed: " +:+ str_exn e)) ;;; ret false).

(** [RemoteOperations.pull_from_remote] (remote.py, lines 381-424). *)
Definition pull_from_remote (fuel : nat) (remote_name branch : string)
    : M bool :=
  try_except
    (match get_remote w remote_name with
     | None =>
         raise (ClickException ("Remote '" +:+ remote_name +:+ "' not found."))
     | Some _ =>
         ok <- client_handshake ;;
         if negb ok
         then raise (ClickException "Failed to connect to remote repository.")
         else
           refs <- client_request_refs ;;
           match truthy_opt_str (dict_get branch refs) with
           | None =>
               raise (ClickException
                        ("Remote branch '" +:+ branch +:+ "' not found."))
           | Some remote_commit =>
               let local_commit := _get_head_commit w in
               if bool_decide (local_commit = Some remote_commit)
               then emit (Echo "Already up to date.") ;;; ret true
               else
                 fetched_new ;;;
                 _fetch_objects_recursive fuel remote_commit None 0%Z None ;;;
                 emit (WriteRef branch remote_commit) ;;;
                 emit RestoreWorkingTree ;;;
                 emit (Echo ("Pulled changes from " +:+ remote_name
                               +:+ "/" +:+ branch)) ;;;
                 ret true
           end
     end)
    (fun e => emit (Echo ("Pull failed: " +:+ str_exn e)) ;;; ret false).

End Remote.

(** ** Reading a trace *)

Definition is_request (e : event) : bool :=
  match e with
  | RequestObject _ _ _ | RequestBlock _ _ => true
  | _ => false
  end.

(** The hash a network request asks for. *)
Definition requested (e : event) : option string :=
  match e with
  | RequestObject _ h _ | RequestBlock h _ => Some h
  | _ => None
  end.

(** The hashes of the object and block requests of a trace, in order. *)
Definition requested_hashes (evs : list event) : list string :=
  omap requested evs.

(** A request whose reply is nothing: [None] or empty bytes. *)
Definition failed_request (e : event) : bool :=
  match e with
  | RequestObject _ _ r | RequestBlock _ r =>
      match truthy_bytes r with Some _ => false | None => true end
  | _ => false
  end.

Definition is_ref_write (e : event) : bool :=
  match e with
  | WriteRef _ _ | WriteHead _ => true
  | _ => false
  end.

Definition initial_state : state := State ∅ [].

(** The events a call adds to the trace it starts from. *)
Definition events_since (st st' : state) : list event :=
  drop (length (trace st)) (trace st').

Definition run_events {A} (m : M A) (st : state) : list event :=
  events_since st (snd (m st)).

(** The state with more events in its trace. *)
Definition add_events (st : state) (evs : list event) : state :=
  State (fetched st) (trace st ++ evs).

Definition clone_failed (e : exn) : event :=
  Echo ("Clone failed: " +:+ str_exn e).
Definition pull_failed (e : exn) : event :=
  Echo ("Pull failed: " +:+ str_exn e).

(** ** Runs of the synchroniser

    [good_run C st r st' evs]: a call started in [st] ended in [st'] with
    outcome [r] after adding the events [evs]; [C] bounds the object
    requests by site and hash. *)
Record good_run (C : site -> string -> Prop) {A} (st : state)
    (r : outcome A) (st' : state) (evs : list event) : Prop := GoodRun {
  gr_trace : trace st' = trace st ++ evs;
  gr_mono : fetched st ⊆ fetched st';
  gr_nodup : NoDup (requested_hashes evs);
  gr_fresh : forall h, h ∈ requested_hashes evs -> h ∉ fetched st;
  gr_done : (forall e, r <> Raised e) ->
            forall h, h ∈ requested_hashes evs -> h ∈ fetched st';
  gr_fail : existsb failed_request evs = true
            <-> exists msg, r = Raised (ClickException msg);
  gr_refs : existsb is_ref_write evs = false;
  gr_sites : forall s h rep, RequestObject s h rep ∈ evs -> C s h
}.

Definition good (C : site -> string -> Prop) {A} (m : M A) : Prop :=
  forall st, exists evs, good_run C st (fst (m st)) (snd (m st)) evs.

(** An event that is neither a request nor a write to the refs. *)
Definition quiet (e : event) : Prop :=
  requested e = None /\ failed_request e = false /\ is_ref_write e = false
  /\ forall s h rep, e <> RequestObject s h rep.

(** What a run of [_fetch_objects_recursive] on [object_hash] at
    [current_depth] may request: trees and blobs, its own commit at
    [current_depth], and commits further down the chain, none of them
    beyond the depth limit. *)
Definition commit_sites (object_hash : string) (depth : option Z)
    (current_depth : Z) (s : site) (h : string) : Prop :=
  match s with
  | AtCommit k =>
      ((k = current_depth /\ h = object_hash) \/ (current_depth < k)%Z)
      /\ forall d, depth = Some d -> (k <= Z.max current_depth (d - 1))%Z
  | _ => True
  end.

(** ** Packet codec *)

(** Modelled from the spec: the [PacketType] enumeration of
    cof/network.py, which is not among the sources; section 3 lists its
    members. *)
Inductive PacketType : Type :=
| HANDSHAKE | HANDSHAKE_ACK
| OBJECT_REQUEST | OBJECT_RESPONSE
| BLOCK_REQUEST | BLOCK_RESPONSE
| REF_REQUEST | REF_RESPONSE
| PUSH_REQUEST | PUSH_RESPONSE
| DATA | ERROR.

(** Modelled from the spec: the single byte that stands for a packet type
    on the wire (section 6); the members are numbered from 1 in the order
    section 3 lists them. *)
Definition PacketType_value (t : PacketType) : N :=
  match t with
  | HANDSHAKE => 1 | HANDSHAKE_ACK => 2
  | OBJECT_REQUEST => 3 | OBJECT_RESPONSE => 4
  | BLOCK_REQUEST => 5 | BLOCK_RESPONSE => 6
  | REF_REQUEST => 7 | REF_RESPONSE => 8
  | PUSH_REQUEST => 9 | PUSH_RESPONSE => 10
  | DATA => 11 | ERROR => 12
  end%N.

(** Modelled from the spec: [PacketType(value)], which fails on a value
    that names no member. *)
Definition PacketType_of_value (n : N) : option PacketType :=
  match n with
  | 1 => Some HANDSHAKE | 2 => Some HANDSHAKE_ACK
  | 3 => Some OBJECT_REQUEST | 4 => Some OBJECT_RESPONSE
  | 5 => Some BLOCK_REQUEST | 6 => Some BLOCK_RESPONSE
  | 7 => Some REF_REQUEST | 8 => Some REF_RESPONSE
  | 9 => Some PUSH_REQUEST | 10 => Some PUSH_RESPONSE
  | 11 => Some DATA | 12 => Some ERROR
  | _ => None
  end%N.

(** Modelled from the spec: the [NetworkPacket] class of cof/network.py
    (section 3, packet model). *)
Record NetworkPacket : Type := MkPacket {
  packet_type : PacketType;
  session_id : string;
  repo_path : string;
  sequence : Z;
  total_packets : Z;
  payload : bytes;
  checksum : string
}.

(** [s.encode()] and [b.decode()]: a string is kept as its UTF-8 bytes. *)
Definition str_encode (s : string) : bytes := list_byte_of_string s.
Definition bytes_decode (b : bytes) : string := string_of_list_byte b.

Definition byte_of_N (n : N) : byte :=
  match Byte.of_N (n mod 256) with
  | Some b => b
  | None => Byte.x00
  end.

(** Fixed-width big-endian integers. *)
Definition u16be (n : N) : bytes :=
  [byte_of_N (n / 256); byte_of_N n].
Definition u32be (n : N) : bytes :=
  [byte_of_N (n / 16777216); byte_of_N (n / 65536); byte_of_N (n / 256);
   byte_of_N n].

Definition of_u16be (b1 b0 : byte) : N :=
  (Byte.to_N b1 * 256 + Byte.to_N b0)%N.
Definition of_u32be (b3 b2 b1 b0 : byte) : N :=
  (Byte.to_N b3 * 16777216 + Byte.to_N b2 * 65536
   + Byte.to_N b1 * 256 + Byte.to_N b0)%N.

(** A length-prefixed UTF-8 string. *)
Definition lp_string (s : string) : bytes :=
  u16be (N.of_nat (length (str_encode s))) ++ str_encode s.

(** Modelled from the spec: the bytes the checksum covers (section 6):
    the type byte, the header [{session_id, repo_path, sequence,
    total_packets}] as length-prefixed strings and fixed-width big-endian
    integers, then the payload. *)
Definition packet_body (t : PacketType) (sid repo : string)
    (seq total : Z) (data : bytes) : bytes :=
  byte_of_N (PacketType_value t)
  :: lp_string sid ++ lp_string repo
  ++ u32be (Z.to_N seq) ++ u32be (Z.to_N total) ++ data.

(** The shortest packet: checksum, type, two empty strings, two integers. *)
Definition MIN_PACKET : nat := 16 + 1 + 2 + 2 + 4 + 4.

(** The fields fit their fixed widths; packing anything else fails. *)
Definition fits (p : NetworkPacket) : bool :=
  (N.of_nat (length (str_encode (session_id p))) <? 65536)%N
  && (N.of_nat (length (str_encode (repo_path p))) <? 65536)%N
  && (0 <=? sequence p)%Z && (sequence p <? 4294967296)%Z
  && (0 <=? total_packets p)%Z && (total_packets p <? 4294967296)%Z.

Inductive unpack_error : Type :=
| PacketTooSmall
| ChecksumMismatch
| ProtocolError.

Inductive unpacked : Type :=
| Unpacked (p : NetworkPacket)
| Rejected (e : unpack_error).

(** Reads a length-prefixed string off the front of [bs]. *)
Definition read_lp_string (bs : bytes) : option (string * bytes) :=
  match bs with
  | b1 :: b0 :: rest =>
      let n := N.to_nat (of_u16be b1 b0) in
      if (n <=? length rest)%nat
      then Some (bytes_decode (take n rest), drop n rest)
      else None
  | _ => None
  end.

Definition read_u32be (bs : bytes) : option (Z * bytes) :=
  match bs with
  | b3 :: b2 :: b1 :: b0 :: rest => Some (Z.of_N (of_u32be b3 b2 b1 b0), rest)
  | _ => None
  end.

(** The header after the type byte, and the payload that follows it. *)
Definition read_header (bs : bytes)
    : option (string * string * Z * Z * bytes) :=
  match read_lp_string bs with
  | Some (sid, bs1) =>
      match read_lp_string bs1 with
      | Some (repo, bs2) =>
          match read_u32be bs2 with
          | Some (seq, bs3) =>
              match read_u32be bs3 with
              | Some (total, data) => Some (sid, repo, seq, total, data)
              | None => None
              end
          | None => None
          end
      | None => None
      end
  | None => None
  end.

#[global] Instance byte_eq_decision : EqDecision byte := Byte.byte_eq_dec.

Definition bytes_eqb (a b : bytes) : bool := bool_decide (a = b).

Section Codec.

(** BLAKE3 of the bytes, as the first 16 characters of its hex digest. *)
Variable blake3_hex16 : bytes -> string.

(** Modelled from the spec: [NetworkPacket(...)], which fills in the
    checksum of the packet it builds. *)
Definition NetworkPacket_init (t : PacketType) (sid repo : string)
    (seq total : Z) (data : bytes) : NetworkPacket :=
  MkPacket t sid repo seq total data
    (blake3_hex16 (packet_body t sid repo seq total data)).

(** Modelled from the spec: [NetworkPacket.pack] (section 4.1): the
    checksum of the serialised bytes, then those bytes.  [None] when a
    field does not fit its width. *)
Definition pack (p : NetworkPacket) : option bytes :=
  if fits p then
    let body := packet_body (packet_type p) (session_id p) (repo_path p)
                  (sequence p) (total_packets p) (payload p) in
    Some (str_encode (blake3_hex16 body) ++ body)
  else None.

(** Modelled from the spec: [NetworkPacket.unpack] (section 4.1): input
    below the minimum length is too small, a checksum that does not match
    the rest is a mismatch, and a type byte that names no member decodes
    as [ERROR]. *)
Definition unpack (data : bytes) : unpacked :=
  if (length data <? MIN_PACKET)%nat then Rejected PacketTooSmall
  else
    let declared := take 16 data in
    let rest := drop 16 data in
    if negb (bytes_eqb (str_encode (blake3_hex16 rest)) declared)
    then Rejected ChecksumMismatch
    else
      match rest with
      | tb :: hdr =>
          match read_header hdr with
          | Some (sid, repo, seq, total, data') =>
              let t := match PacketType_of_value (Byte.to_N tb) with
                       | Some t => t
                       | None => ERROR
                       end in
              Unpacked (MkPacket t sid repo seq total data' (bytes_decode declared))
          | None => Rejected ProtocolError
          end
      | [] => Rejected PacketTooSmall
      end.

(** ** Server dispatch *)

(** Modelled from the spec: [str(packet_type)] for a member of the
    enumeration. *)
Variable str_PacketType : PacketType -> string.

(** The objects of the local store: dictionaries, of which the server
    uses the truth value and the JSON text. *)
Variable Obj : Type.
Variable truthy_obj : Obj -> bool.
Variable json_dumps_obj : Obj -> bytes.
Variable json_dumps_refs : list (string * string) -> bytes.

(** [payload.decode()] returns the text or raises with a message. *)
Variable payload_decode : bytes -> string + string.

(** What [_process_packet] reads of a [CofRepository]: [heads] is the
    content of [refs/heads] (each file with its stripped text), [None]
    when the directory is missing; [get_block] is the block tier of the
    store contract (section 6). *)
Record Repository : Type := MkRepository {
  _is_repo : bool;
  _load_object : string -> option Obj;
  heads : option (list (string * string));
  get_block : string -> option bytes
}.

(** [CofRepository(str(self.root_dir / packet.repo_path))] *)
Variable CofRepository : string -> Repository.

Definition quote : string := String "034"%char EmptyString.

(** [json.dumps({"status": s}).encode()] *)
Definition json_status (s : string) : bytes :=
  str_encode ("{" +:+ quote +:+ "status" +:+ quote +:+ ": "
          +:+ quote +:+ s +:+ quote +:+ "}").

Definition reply (packet : NetworkPacket) (t : PacketType) (data : bytes)
    : NetworkPacket :=
  NetworkPacket_init t (session_id packet) (repo_path packet) 0%Z 1%Z data.

(** [NetworkServer._process_packet] (server.py, lines 85-183). *)
Definition _process_packet (packet : NetworkPacket) : NetworkPacket :=
  let repository := CofRepository (repo_path packet) in
  if negb (_is_repo repository) then
    reply packet ERROR
      (str_encode ("Repository not found at " +:+ repo_path packet))
  else
    match packet_type packet with
    | HANDSHAKE => reply packet HANDSHAKE_ACK (json_status "ok")
    | OBJECT_REQUEST =>
        match payload_decode (payload packet) with
        | inl object_hash =>
            match _load_object repository object_hash with
            | Some obj_data =>
                if truthy_obj obj_data
                then reply packet OBJECT_RESPONSE (json_dumps_obj obj_data)
                else reply packet ERROR
                       (str_encode ("Object " +:+ object_hash +:+ " not found"))
            | None =>
                reply packet ERROR
                  (str_encode ("Object " +:+ object_hash +:+ " not found"))
            end
        | inr e => reply packet ERROR (str_encode e)
        end
    | REF_REQUEST =>
        reply packet REF_RESPONSE
          (json_dumps_refs (match heads repository with
                            | Some refs => refs
                            | None => []
                            end))
    | PUSH_REQUEST => reply packet PUSH_RESPONSE (json_status "received")
    | t => reply packet ERROR
             (str_encode ("Unknown packet type: " +:+ str_PacketType t))
    end.

End Codec.

(** ** Concrete remotes for the examples

    A remote given by a table of objects and a table of blocks.  On the
    wire an object travels as the bytes of its own hash, which
    [json_loads] resolves through the table; the block store names a
    block by its content. *)

Fixpoint assoc {A} (k : string) (l : list (string * A)) : option A :=
  match l with
  | [] => None
  | (k', v) :: l' => if String.eqb k k' then Some v else assoc k l'
  end.

Definition table_world (objects : list (string * obj_dict))
    (blocks : list (string * bytes)) (refs : list (string * string))
    (head : option string) : world :=
  {| handshake := fun _ => true;
     request_refs := fun _ => refs;
     request_object := fun _ h =>
       match assoc h objects with
       | Some _ => Some (list_byte_of_string h)
       | None => None
       end;
     request_block := fun _ h => assoc h blocks;
     json_loads := fun data => assoc (string_of_list_byte data) objects;
     store_block := fun data _ => string_of_list_byte data;
     fnmatch := fnmatch_glob;
     get_remote := fun name => if String.eqb name "origin" then Some "cof://h/r" else None;
     _get_head_commit := head;
     target_dir_not_empty := false;
     config_loaded := true |}.

Definition commit_obj (p : option string) (t : string) : obj_dict :=
  ObjDict (Some p) (Some t) None None.
Definition tree_obj (es : list (string * entry_data)) : obj_dict :=
  ObjDict None None (Some es) None.
Definition blob_obj (hs : list string) : obj_dict :=
  ObjDict None None None (Some hs).

(** A commit whose root tree holds the directory [docs] with the file
    [docs/b.md] in it. *)
Definition nested_objects : list (string * obj_dict) :=
  [ ("c1", commit_obj None "t1");
    ("t1", tree_obj [("docs", EntryData dir "t2")]);
    ("t2", tree_obj [("b.md", EntryData file "blob1")]);
    ("blob1", blob_obj ["hello"]) ].
Definition nested_world : world :=
  table_world nested_objects [("hello", list_byte_of_string "hello")]
    [("main", "c1")] None.

(** A commit with one file whose only block arrives with other bytes than
    its hash names. *)
Definition tampered_objects : list (string * obj_dict) :=
  [ ("c1", commit_obj None "t1");
    ("t1", tree_obj [("a.txt", EntryData file "blob1")]);
    ("blob1", blob_obj ["hello"]) ].
Definition tampered_world : world :=
  table_world tampered_objects [("hello", list_byte_of_string "HELLO")]
    [("main", "c1")] None.

(** A tree that names the same blob twice. *)
Definition twice_objects : list (string * obj_dict) :=
  [ ("c1", commit_obj None "t1");
    ("t1", tree_obj [("a.txt", EntryData file "blob1");
                     ("b.txt", EntryData file "blob1")]);
    ("blob1", blob_obj ["hello"; "hello"]) ].
Definition twice_world : world :=
  table_world twice_objects [("hello", list_byte_of_string "hello")]
    [("main", "c1")] None.

(** The chain C3 -> C2 -> C1 with tip C3; every commit has its own tree. *)
Definition chain_objects : list (string * obj_dict) :=
  [ ("C3", commit_obj (Some "C2") "T3");
    ("C2", commit_obj (Some "C1") "T2");
    ("C1", commit_obj None "T1");
    ("T3", tree_obj []); ("T2", tree_obj []); ("T1", tree_obj []) ].
Definition chain_world (head : option string) : world :=
  table_world chain_objects [] [("main", "C3")] head.

(** The same chain on a remote that has lost C2. *)
Definition broken_world : world :=
  table_world
    [ ("C3", commit_obj (Some "C2") "T3"); ("T3", tree_obj []) ]
    [] [("main", "C3"); ("dev", "C3")] None.

(** ** A concrete codec and server for the examples *)

(** A stand-in for BLAKE3 with a digest of the right length. *)
Definition toy_checksum (b : bytes) : string := "0000000000000000".

(** Modelled from the spec: the name of each member of [PacketType]. *)
Definition PacketType_name (t : PacketType) : string :=
  match t with
  | HANDSHAKE => "HANDSHAKE" | HANDSHAKE_ACK => "HANDSHAKE_ACK"
  | OBJECT_REQUEST => "OBJECT_REQUEST" | OBJECT_RESPONSE => "OBJECT_RESPONSE"
  | BLOCK_REQUEST => "BLOCK_REQUEST" | BLOCK_RESPONSE => "BLOCK_RESPONSE"
  | REF_REQUEST => "REF_REQUEST" | REF_RESPONSE => "REF_RESPONSE"
  | PUSH_REQUEST => "PUSH_REQUEST" | PUSH_RESPONSE => "PUSH_RESPONSE"
  | DATA => "DATA" | ERROR => "ERROR"
  end.

(** Modelled from the spec: [str] of a member of a Python [Enum]. *)
Definition PacketType_str (t : PacketType) : string :=
  "PacketType." +:+ PacketType_name t.

(** A server root with one repository, [repo], whose block store holds the
    block [hello]. *)
Definition served_repository : Repository obj_dict :=
  MkRepository obj_dict true (fun h => assoc h tampered_objects)
    (Some [("main", "c1")])
    (fun h => assoc h [("hello", list_byte_of_string "hello")]).

Definition no_repository : Repository obj_dict :=
  MkRepository obj_dict false (fun _ => None) None (fun _ => None).

Definition served_root (path : string) : Repository obj_dict :=
  if String.eqb path "repo" then served_repository else no_repository.

Definition serve : NetworkPacket -> NetworkPacket :=
  _process_packet toy_checksum PacketType_str obj_dict (fun _ => true)
    (fun _ => []) (fun _ => []) (fun b => inl (bytes_decode b)) served_root.

Definition block_request : NetworkPacket :=
  NetworkPacket_init toy_checksum BLOCK_REQUEST "s1" "repo" 0 1
    (str_encode "hello").

(** A handshake packet with its type byte overwritten by [0xff], and the
    seventeen bytes that hold a checksum and that type byte only. *)
Definition retyped_handshake : bytes :=
  str_encode "0000000000000000"
  ++ Byte.xff :: lp_string "s1" ++ lp_string "r" ++ u32be 0 ++ u32be 1.

Definition truncated_packet : bytes :=
  str_encode "0000000000000000" ++ [Byte.xff].

(** A computation that does not depend on fuel: it returns or raises. *)
Definition never_out_of_fuel {A} (m : M A) : Prop :=
  forall st, fst (m st) <> OutOfFuel.

(** Every parent a decoded object names belongs to [U]. *)
Definition parents_within (w : world) (U : gset string) : Prop :=
  forall data obj p,
    json_loads w data = Some obj -> truthy_parent obj = Some p -> p ∈ U.

(** A remote that advertises [main] and a branch [dev] whose commit it
    does not hold. *)
Definition two_branch_world : world :=
  table_world chain_objects [] [("main", "C3"); ("dev", "D9")] None.

(** What is stored was received: an object is saved under the hash it
    was requested by, as the reply decodes; a block is stored with commit
    sequence 0, as the bytes of a block reply, under the hash the store
    gives them. *)
Definition stores_received (w : world) (evs : list event) : Prop :=
  (forall h o, SaveObject h o ∈ evs ->
     exists s data, RequestObject s h (Some data) ∈ evs
                    /\ json_loads w data = Some o)
  /\ (forall data seq stored, StoreBlock data seq stored ∈ evs ->
        seq = 0%Z /\ stored = store_block w data 0
        /\ exists h, RequestBlock h (Some data) ∈ evs).

(** A run whose stores are accounted for by its requests, and whose
    visited set grew by requested hashes only. *)
Record accounted_run (w : world) (st st' : state) (evs : list event)
    : Prop := AccountedRun {
  ar_trace : trace st' = trace st ++ evs;
  ar_stores : stores_received w evs;
  ar_fetched : fetched st' ⊆ fetched st ∪ list_to_set (requested_hashes evs)
}.

Definition accounted (w : world) {A} (m : M A) : Prop :=
  forall st, exists evs, accounted_run w st (snd (m st)) evs.

(** The test of remote.py lines 231-235 on the entry [entry_name] of a
    tree fetched at [current_path]: [false] when the entry is skipped. *)
Definition passes_filter (w : world) (path_filter : option string)
    (current_path entry_name : string) : bool :=
  match truthy_opt_str path_filter with
  | Some pat =>
      _matches_filter (fnmatch w)
        (if truthy_str current_path
         then os_path_join current_path entry_name
         else entry_name) pat
  | None => true
  end.

(** A commit whose tree holds a file and two directories. *)
Definition filter_objects : list (string * obj_dict) :=
  [ ("c1", commit_obj None "t1");
    ("t1", tree_obj [("README.md", EntryData file "blobR");
                     ("docs", EntryData dir "t2");
                     ("src", EntryData dir "t3")]);
    ("t2", tree_obj [("b.md", EntryData file "blobB")]);
    ("t3", tree_obj [("a.txt", EntryData file "blobA")]);
    ("blobR", blob_obj []); ("blobA", blob_obj []); ("blobB", blob_obj []) ].
Definition filter_world : world :=
  table_world filter_objects [] [("main", "c1")] None.

(** ** Collecting the objects to push

    What remote.py reads of the local repository.  [load_object h] is the
    dictionary [_load_object(h)] returns when that result is truthy, which
    is the only way the push path uses it; [branch_ref b] is the stripped
    text of the ref file of branch [b], [None] when the file is missing. *)
Record local_repository : Type := LocalRepository {
  load_object : string -> option obj_dict;
  json_dumps : obj_dict -> bytes;
  branch_ref : string -> option string
}.

Section Collect.

Variable repository : local_repository.

(** remote.py lines 371-377: one iteration of the loop over
    [tree_data["entries"].values()]; the pair is [(objects, fetched)]. *)
Definition collect_entry (acc : gmap string bytes * gset string)
    (entry_data : entry_data) : gmap string bytes * gset string :=
  let '(objects, fetched) := acc in
  let blob_hash := hash entry_data in
  if bool_decide (blob_hash ∈ fetched) then (objects, fetched)
  else
    match load_object repository blob_hash with
    | Some blob_data =>
        (<[blob_hash := json_dumps repository blob_data]> objects,
         {[blob_hash]} ∪ fetched)
    | None => (objects, fetched)
    end.

(** [RemoteOperations._get_tree_objects] (remote.py, lines 354-379): the
    mapping it returns and the [fetched] set it leaves. *)
Definition _get_tree_objects (tree_hash : string) (fetched : gset string)
    : gmap string bytes * gset string :=
  if bool_decide (tree_hash ∈ fetched) then (∅, fetched)
  else
    match load_object repository tree_hash with
    | None => (∅, fetched)
    | Some tree_data =>
        let fetched := {[tree_hash]} ∪ fetched in
        let objects := {[tree_hash := json_dumps repository tree_data]} in
        match entries tree_data with
        | Some es => foldl collect_entry (objects, fetched) (map snd es)
        | None => (objects, fetched)
        end
    end.

(** [RemoteOperations._get_objects_to_push] (remote.py, lines 324-352);
    [fuel] bounds the recursion along [parent], [None] is fuel exhausted.
    [objects.update(d)] is the union that prefers [d]. *)
Fixpoint _get_objects_to_push (fuel : nat) (commit_hash : string)
    (fetched : gset string) : option (gmap string bytes * gset string) :=
  match fuel with
  | O => None
  | S fuel' =>
      if bool_decide (commit_hash ∈ fetched) then Some (∅, fetched)
      else
        match load_object repository commit_hash with
        | None => Some (∅, fetched)
        | Some commit_data =>
            let fetched := {[commit_hash]} ∪ fetched in
            let objects :=
              {[commit_hash := json_dumps repository commit_data]} in
            match
              match truthy_parent commit_data with
              | Some p => _get_objects_to_push fuel' p fetched
              | None => Some (∅, fetched)
              end
            with
            | None => None
            | Some (parent_objects, fetched) =>
                let objects := parent_objects ∪ objects in
                match truthy_opt_str (tree_root commit_data) with
                | Some t =>
                    let '(tree_objects, fetched) :=
                      _get_tree_objects t fetched in
                    Some (tree_objects ∪ objects, fetched)
                | None => Some (objects, fetched)
                end
            end
        end
  end.

End Collect.

(** ** Push *)

(** What push does to the outside, in order. *)
Inductive push_event : Type :=
| PushHandshake (ok : bool)
| PushObjects (objects : gmap string bytes) (ok : bool)
| PushEcho (msg : string).

(** The surroundings of a push: the remotes registry, the local
    repository, and the answers of the client. *)
Record push_world : Type := PushWorld {
  push_get_remote : string -> option string;
  push_repository : local_repository;
  push_handshake : bool;
  push_objects : gmap string bytes -> bool
}.

(** [RemoteOperations.push_to_remote] (remote.py, lines 284-322): the value
    returned and the events, [None] when the fuel of the collection runs
    out. *)
Definition push_to_remote (pw : push_world) (fuel : nat)
    (remote_name branch : string) : option (bool * list push_event) :=
  let failed msg := Some (false, [PushEcho ("Push failed: " +:+ msg)]) in
  match push_get_remote pw remote_name with
  | None => failed ("Remote '" +:+ remote_name +:+ "' not found.")
  | Some _ =>
      match branch_ref (push_repository pw) branch with
      | None => failed ("Branch '" +:+ branch +:+ "' does not exist locally.")
      | Some local_commit =>
          match _get_objects_to_push (push_repository pw) fuel local_commit ∅
          with
          | None => None
          | Some (objects_to_push, _) =>
              if bool_decide (objects_to_push = ∅)
              then Some (true, [PushEcho "Nothing to push."])
              else if negb (push_handshake pw)
              then Some (false,
                         [PushHandshake false;
                          PushEcho ("Push failed: "
                            +:+ "Failed to connect to remote repository.")])
              else if negb (push_objects pw objects_to_push)
              then Some (false,
                         [PushHandshake true;
                          PushObjects objects_to_push false;
                          PushEcho ("Push failed: "
                            +:+ "Failed to push objects to remote.")])
              else Some (true,
                         [PushHandshake true;
                          PushObjects objects_to_push true;
                          PushEcho ("Pushed "
                            +:+ pretty (size objects_to_push)
                            +:+ " objects to " +:+ remote_name)])
          end
      end
  end.

(** What a collection that started from [fetched] returns: it marks
    exactly the hashes it returns, none of which was marked before, and
    every value is the JSON text of the object stored under its hash. *)
Definition collected (repository : local_repository) (fetched : gset string)
    (res : gmap string bytes * gset string) : Prop :=
  res.2 = fetched ∪ dom res.1
  /\ dom res.1 ## fetched
  /\ forall h b, res.1 !! h = Some b ->
       exists o, load_object repository h = Some o
                 /\ b = json_dumps repository o.

(** Every parent a commit of the local store names belongs to [U]. *)
Definition stored_parents_within (repository : local_repository)
    (U : gset string) : Prop :=
  forall h c p,
    load_object repository h = Some c -> truthy_parent c = Some p -> p ∈ U.

(** A local repository for the examples: the chain [C2 -> C1]; the tree of
    [C2] holds a file and the directory [lib], which holds a file. *)
Definition local_objects : list (string * obj_dict) :=
  [ ("C2", commit_obj (Some "C1") "T2");
    ("C1", commit_obj None "T1");
    ("T2", tree_obj [("a.txt", EntryData file "blobA");
                     ("lib", EntryData dir "T2lib")]);
    ("T2lib", tree_obj [("b.txt", EntryData file "blobB")]);
    ("T1", tree_obj []);
    ("blobA", blob_obj ["blockA"]);
    ("blobB", blob_obj ["blockB"]) ].

Definition example_repository : local_repository :=
  LocalRepository (fun h => assoc h local_objects)
    (fun o => match parent o, tree_root o with
              | Some _, Some t => list_byte_of_string ("commit " +:+ t)
              | _, _ => list_byte_of_string "object"
              end)
    (fun b => if String.eqb b "main" then Some "C2"
              else if String.eqb b "stale" then Some "C9"
              else None).

Definition example_push_world (handshake_ok push_ok : bool) : push_world :=
  PushWorld (fun name => if String.eqb name "origin" then Some "cof://h/r"
                         else None)
    example_repository handshake_ok (fun _ => push_ok).

(** ** Handling a datagram *)

(** How a call of [_handle_packet] ends: having sent one datagram, or in
    an exception that leaves the handler, with nothing sent. *)
Inductive handled : Type :=
| Sent (datagram : bytes)
| Failed (msg : string).

Section Handle.

Variable blake3_hex16 : bytes -> string.
Variable str_PacketType : PacketType -> string.
Variable Obj : Type.
Variable truthy_obj : Obj -> bool.
Variable json_dumps_obj : Obj -> bytes.
Variable json_dumps_refs : list (string * string) -> bytes.
Variable payload_decode : bytes -> string + string.
Variable CofRepository : string -> Repository Obj.

(** [str(e)] for the exception [unpack] raises on a rejected input and for
    the one [pack] raises on a packet that does not fit. *)
Variable str_unpack_error : unpack_error -> string.
Variable str_pack_error : string.

(** [self.socket.sendto(data, addr)] for the address the datagram came
    from: [None] when the datagram goes out, [str(e)] when the call raises
    (a datagram above the size the transport takes is refused with
    [OSError]). *)
Variable sendto : bytes -> option string.

(** The packet of the [except] branch of [_handle_packet]. *)
Definition error_packet (msg : string) : NetworkPacket :=
  NetworkPacket_init blake3_hex16 ERROR "" "" 0 1 (str_encode msg).

(** The [except] branch (server.py, lines 72-83) for an exception whose
    text is [msg]; an exception raised here leaves the handler. *)
Definition send_error (msg : string) : handled :=
  match pack blake3_hex16 (error_packet msg) with
  | Some error_data =>
      match sendto error_data with
      | None => Sent error_data
      | Some msg' => Failed msg'
      end
  | None => Failed str_pack_error
  end.

(** [NetworkServer._handle_packet] (server.py, lines 61-83) with the
    socket open.  [unpack], [pack] and [sendto] all sit inside the [try],
    so an exception of any of them is answered by the [except] branch. *)
Definition _handle_packet (data : bytes) : handled :=
  match unpack blake3_hex16 data with
  | Unpacked packet =>
      let response :=
        _process_packet blake3_hex16 str_PacketType Obj truthy_obj
          json_dumps_obj json_dumps_refs payload_decode CofRepository packet in
      match pack blake3_hex16 response with
      | Some response_data =>
          match sendto response_data with
          | None => Sent response_data
          | Some msg => send_error msg
          end
      | None => send_error str_pack_error
      end
  | Rejected e => send_error (str_unpack_error e)
  end.

End Handle.

(** A socket that takes datagrams of up to [limit] bytes. *)
Definition sendto_upto (limit : nat) (data : bytes) : option string :=
  if (length data <=? limit)%nat then None else Some "Message too long".

(** A handshake for the served repository, as it arrives. *)
Definition handshake_datagram : bytes :=
  str_encode "0000000000000000" ++ packet_body HANDSHAKE "s1" "repo" 0 1 [].

(** ** The remotes registry *)

Module RemoteManager.

(** One entry of [remotes.json]: the keys [url], [host] and [port], and
    [protocol] when the file has it. *)
Record remote_info : Type := RemoteInfo {
  info_url : string;
  info_host : string;
  info_port : Z;
  info_protocol : option string
}.

Section Manager.

(** [cof.models.RemoteRepository] is not among the sources: its type, the
    attributes remote.py reads, [RemoteRepository.from_url(name, url)] and
    the constructor call [RemoteRepository(name=, url=, host=, port=,
    protocol=)] are parameters. *)
Variable RemoteRepository : Type.
Variable from_url : string -> string -> RemoteRepository.
Variable new : string -> string -> string -> Z -> string -> RemoteRepository.
Variables url host protocol : RemoteRepository -> string.
Variable port : RemoteRepository -> Z.

(** A [RemoteManager]: the [remotes] dictionary and the content of
    [remotes_file], [None] while the file does not exist. *)
Record manager : Type := Manager {
  remotes : gmap string RemoteRepository;
  remotes_file : option (gmap string remote_info)
}.

(** [RemoteManager._load_remotes] (remote.py, lines 25-40). *)
Definition _load_remotes (file : option (gmap string remote_info))
    : gmap string RemoteRepository :=
  match file with
  | Some data =>
      map_imap (fun name info =>
                  Some (new name (info_url info) (info_host info)
                          (info_port info)
                          (default "udp" (info_protocol info)))) data
  | None => ∅
  end.

(** [RemoteManager.__init__] (remote.py, lines 20-23). *)
Definition init (file : option (gmap string remote_info)) : manager :=
  Manager (_load_remotes file) file.

(** [RemoteManager._save_remotes] (remote.py, lines 42-55). *)
Definition _save_remotes (m : manager) : manager :=
  Manager (remotes m)
    (Some ((fun remote => RemoteInfo (url remote) (host remote) (port remote)
                            (Some (protocol remote))) <$> remotes m)).

(** [RemoteManager.add_remote] (remote.py, lines 57-66): the message of
    the [ClickException], or the manager afterwards and the line echoed. *)
Definition add_remote (name u : string) (m : manager)
    : string + manager * string :=
  match remotes m !! name with
  | Some _ => inl ("Remote '" +:+ name +:+ "' already exists.")
  | None =>
      let remote := from_url name u in
      inr (_save_remotes (Manager (<[name := remote]> (remotes m))
                            (remotes_file m)),
           "Added remote '" +:+ name +:+ "' (" +:+ url remote +:+ ")")
  end.

(** [RemoteManager.remove_remote] (remote.py, lines 68-76). *)
Definition remove_remote (name : string) (m : manager)
    : string + manager * string :=
  match remotes m !! name with
  | None => inl ("Remote '" +:+ name +:+ "' does not exist.")
  | Some _ =>
      inr (_save_remotes (Manager (delete name (remotes m)) (remotes_file m)),
           "Removed remote '" +:+ name +:+ "'")
  end.

(** [list_remotes], [get_remote] and [get_default_remote]
    (remote.py, lines 78-88). *)
Definition list_remotes (m : manager) : gmap string RemoteRepository :=
  remotes m.
Definition get_remote (name : string) (m : manager) : option RemoteRepository :=
  remotes m !! name.
Definition get_default_remote (m : manager) : option RemoteRepository :=
  remotes m !! "origin".

End Manager.

(** A remote with the five attributes the registry file keeps and the
    repository path cut from the url by the caller. *)
Record example_remote : Type := ExampleRemote {
  ex_name : string;
  ex_url : string;
  ex_host : string;
  ex_port : Z;
  ex_protocol : string;
  ex_repo_path : string
}.

Definition example_from_url (name u : string) : example_remote :=
  ExampleRemote name u "127.0.0.1" 7357 "udp" "repo".
Definition example_new (name u h : string) (p : Z) (proto : string)
    : example_remote :=
  ExampleRemote name u h p proto "".

Definition example_add (name u : string) (m : manager example_remote)
    : string + manager example_remote * string :=
  add_remote example_remote example_from_url ex_url ex_host ex_protocol
    ex_port name u m.
Definition example_remove (name : string) (m : manager example_remote)
    : string + manager example_remote * string :=
  remove_remote example_remote ex_url ex_host ex_protocol ex_port name m.

End RemoteManager.

(* ===================================================================== *)
(** * Part II — lemmas                                                    *)
(* ===================================================================== *)

(** ** The path filter *)

Example split_one : split_star2 "src/**/*.py" = ["src/"; "/*.py"].
Proof. reflexivity. Qed.

Example split_two : split_star2 "a/**/**" = ["a/"; "/"; ""].
Proof. reflexivity. Qed.

Example split_overlap : split_star2 "***" = [""; "*"].
Proof. reflexivity. Qed.

Example rstrip_all : rstrip_slash "a/b//" = "a/b".
Proof. reflexivity. Qed.

Example filter_docs :
  _matches_filter fnmatch_glob "docs/b.md" "docs/*" = true
  /\ _matches_filter fnmatch_glob "src/a.txt" "docs/*" = false
  /\ _matches_filter fnmatch_glob "src/x/y.py" "src/**/*.py" = true.
Proof. repeat split; reflexivity. Qed.

Lemma append_snoc (cur : string) (a : ascii) (t : string) :
  (cur +:+ String a EmptyString) +:+ t = cur +:+ String a t.
Proof.
  induction cur as [|c cur IH]; [reflexivity|].
  change (String c ((cur +:+ String a EmptyString) +:+ t)
          = String c (cur +:+ String a t)).
  now rewrite IH.
Qed.

Lemma append_empty_r (s : string) : s +:+ EmptyString = s.
Proof.
  induction s as [|c s IH]; [reflexivity|].
  change (String c (s +:+ EmptyString) = String c s). now rewrite IH.
Qed.

Lemma split_from_nonempty (s cur : string) : split_star2_from cur s <> [].
Proof.
  revert cur. induction s as [|a t IH]; intros cur; simpl; [discriminate|].
  destruct t as [|b t']; [discriminate|].
  destruct (Ascii.eqb a "*" && Ascii.eqb b "*"); [discriminate | apply IH].
Qed.

(** Without ['**'] the split is the pattern itself and there is no cut. *)
Lemma split_from_plain (s cur : string) :
  has_star2 s = false ->
  split_star2_from cur s = [cur +:+ s] /\ partition_star2_from cur s = None.
Proof.
  revert cur. induction s as [|a t IH]; intros cur H.
  - simpl. now rewrite append_empty_r.
  - destruct t as [|b t']; [now split|].
    change (has_star2 (String a (String b t')))
      with ((Ascii.eqb a "*" && Ascii.eqb b "*") || has_star2 (String b t')) in H.
    apply orb_false_iff in H as [H1 H2].
    change (split_star2_from cur (String a (String b t')))
      with (if Ascii.eqb a "*" && Ascii.eqb b "*"
            then cur :: split_star2_from EmptyString t'
            else split_star2_from (cur +:+ String a EmptyString) (String b t')).
    change (partition_star2_from cur (String a (String b t')))
      with (if Ascii.eqb a "*" && Ascii.eqb b "*"
            then Some (cur, t')
            else partition_star2_from (cur +:+ String a EmptyString) (String b t')).
    rewrite H1.
    destruct (IH (cur +:+ String a EmptyString) H2) as [E1 E2].
    rewrite E1, E2, append_snoc. now split.
Qed.

(** With ['**'] the split starts with the text before the first ['**'] and
    goes on with the split of the text after it. *)
Lemma split_from_cut (s cur : string) :
  has_star2 s = true ->
  exists a r, partition_star2_from cur s = Some (a, r)
              /\ split_star2_from cur s = a :: split_star2_from EmptyString r.
Proof.
  revert cur. induction s as [|a t IH]; intros cur H; [discriminate|].
  destruct t as [|b t']; [discriminate|].
  change (has_star2 (String a (String b t')))
    with ((Ascii.eqb a "*" && Ascii.eqb b "*") || has_star2 (String b t')) in H.
  change (split_star2_from cur (String a (String b t')))
    with (if Ascii.eqb a "*" && Ascii.eqb b "*"
          then cur :: split_star2_from EmptyString t'
          else split_star2_from (cur +:+ String a EmptyString) (String b t')).
  change (partition_star2_from cur (String a (String b t')))
    with (if Ascii.eqb a "*" && Ascii.eqb b "*"
          then Some (cur, t')
          else partition_star2_from (cur +:+ String a EmptyString) (String b t')).
  destruct (Ascii.eqb a "*" && Ascii.eqb b "*") eqn:E.
  - now exists cur, t'.
  - apply IH. exact H.
Qed.

Lemma split_single_plain (s x : string) :
  split_star2 s = [x] -> has_star2 s = false.
Proof.
  intros H. destruct (has_star2 s) eqn:E; [|reflexivity].
  destruct (split_from_cut s EmptyString E) as (a & r & _ & Hs).
  unfold split_star2 in H. rewrite Hs in H.
  injection H as _ H. now apply split_from_nonempty in H.
Qed.

(** When the split has exactly two parts they are the prefix and the
    suffix of the cut at the first ['**']. *)
Lemma split_two_parts (s prefix suffix : string) :
  split_star2 s = [prefix; suffix] ->
  has_star2 s = true /\ partition_star2 s = Some (prefix, suffix).
Proof.
  intros H. destruct (has_star2 s) eqn:E.
  - split; [reflexivity|].
    destruct (split_from_cut s EmptyString E) as (a & r & Hp & Hs).
    unfold split_star2 in H. rewrite Hs in H. injection H as -> H.
    unfold partition_star2. rewrite Hp.
    destruct (split_from_plain r EmptyString (split_single_plain r suffix H))
      as [Hr _].
    rewrite Hr in H. change (EmptyString +:+ r) with r in H.
    now injection H as ->.
  - destruct (split_from_plain s EmptyString E) as [Hs _].
    unfold split_star2 in H. rewrite Hs in H. discriminate.
Qed.

(** C7, as stated, fails: a pattern with two ['**'] is not cut at the first
    one but handed to the plain glob match.  The path [a] passes the
    filter the claim describes for [a/**/**] and fails the one of the
    code. *)
Lemma matches_filter_two_stars :
  _matches_filter fnmatch_glob "a" "a/**/**" = false
  /\ matches_filter_spec fnmatch_glob "a" "a/**/**" = true.
Proof. split; reflexivity. Qed.

(** C7, amended: for every path and pattern, when the pattern splits at
    ['**'] into exactly two parts the filter is the one the claim describes
    (prefix with trailing slashes stripped, suffix as a suffix-glob); every
    other pattern, without ['**'] or with several, goes to the plain glob
    match. *)
Theorem matches_filter_single_star2 (fnmatch : string -> string -> bool)
    (path filter_pattern : string) :
  _matches_filter fnmatch path filter_pattern =
    if (length (split_star2 filter_pattern) =? 2)%nat
    then matches_filter_spec fnmatch path filter_pattern
    else fnmatch path filter_pattern.
Proof.
  unfold _matches_filter, matches_filter_spec.
  destruct (has_star2 filter_pattern) eqn:E.
  - destruct (split_star2 filter_pattern) as [|x [|y [|z l]]] eqn:Hs;
      try reflexivity.
    destruct (split_two_parts _ _ _ Hs) as [_ Hp]. rewrite Hp. simpl.
    destruct x as [|c x']; simpl; [reflexivity|].
    now destruct (startswith _ path).
  - destruct (split_from_plain filter_pattern EmptyString E) as [Hs Hp].
    unfold split_star2, partition_star2. rewrite Hs, Hp. reflexivity.
Qed.

(** ** Runs of the synchroniser *)

Lemma events_since_app (st st' : state) (evs : list event) :
  trace st' = trace st ++ evs -> events_since st st' = evs.
Proof. intros H. unfold events_since. rewrite H. apply drop_app_length. Qed.

Lemma good_run_events C {A} (m : M A) (st : state) :
  good C m -> good_run C st (fst (m st)) (snd (m st)) (run_events m st).
Proof.
  intros H. destruct (H st) as [evs G]. unfold run_events.
  now rewrite (events_since_app _ _ _ (gr_trace _ _ _ _ _ G)).
Qed.

Lemma good_run_nil C {A} (st : state) (r : outcome A) :
  (forall msg, r <> Raised (ClickException msg)) -> good_run C st r st [].
Proof.
  intros Hr. split; simpl.
  - now rewrite app_nil_r.
  - reflexivity.
  - constructor.
  - intros h Hh. inversion Hh.
  - intros _ h Hh. inversion Hh.
  - split; [discriminate | intros [msg ->]; now destruct (Hr msg)].
  - reflexivity.
  - intros s h rep Hh. inversion Hh.
Qed.

Lemma good_ret C {A} (a : A) : good C (ret a).
Proof. intros st. exists []. now apply good_run_nil. Qed.

Lemma good_raise_decode C {A} : good C (@raise A JSONDecodeError).
Proof. intros st. exists []. now apply good_run_nil. Qed.

Lemma good_out_of_fuel C {A} : good C (@out_of_fuel A).
Proof. intros st. exists []. now apply good_run_nil. Qed.

Lemma good_is_fetched C (h : string) : good C (is_fetched h).
Proof. intros st. exists []. now apply good_run_nil. Qed.

Lemma good_weaken (C C' : site -> string -> Prop) {A} (m : M A) :
  (forall s h, C s h -> C' s h) -> good C m -> good C' m.
Proof.
  intros HC H st. destruct (H st) as [evs G]. exists evs.
  destruct G. split; eauto.
Qed.

Lemma requested_hashes_app (l1 l2 : list event) :
  requested_hashes (l1 ++ l2) = requested_hashes l1 ++ requested_hashes l2.
Proof. apply omap_app. Qed.

Lemma good_emit C (e : event) : quiet e -> good C (emit e).
Proof.
  intros (Hq & Hf & Hw & Hs) st. exists [e]. split; simpl.
  - reflexivity.
  - reflexivity.
  - unfold requested_hashes. simpl. rewrite Hq. constructor.
  - unfold requested_hashes. simpl. rewrite Hq. intros h Hh. inversion Hh.
  - unfold requested_hashes. simpl. rewrite Hq. intros _ h Hh. inversion Hh.
  - rewrite Hf. split; [discriminate | intros [msg Hm]; discriminate].
  - now rewrite Hw.
  - intros s h rep Hh. apply list_elem_of_singleton in Hh. now destruct (Hs s h rep).
Qed.

(** Sequencing: the events of the first call, then those of the second. *)
Lemma good_run_seq C {A B} (st st1 st2 : state) (a : A) (r : outcome B)
    (evs1 evs2 : list event) :
  good_run C st (Returned a) st1 evs1 ->
  good_run C st1 r st2 evs2 ->
  good_run C st r st2 (evs1 ++ evs2).
Proof.
  intros G1 G2. destruct G1, G2.
  assert (Hret : forall e, Returned a <> Raised e) by discriminate.
  split.
  - rewrite gr_trace1, gr_trace0. now rewrite app_assoc.
  - intros x Hx. apply gr_mono1, gr_mono0, Hx.
  - rewrite requested_hashes_app. apply NoDup_app. repeat split; auto.
    intros h H1 H2. apply (gr_fresh1 h H2). now apply gr_done0.
  - intros h. rewrite requested_hashes_app, elem_of_app. intros [H|H]; [auto|].
    intros Hin. apply (gr_fresh1 h H), gr_mono0, Hin.
  - intros Hr h. rewrite requested_hashes_app, elem_of_app. intros [H|H].
    + apply gr_mono1. now apply gr_done0.
    + now apply gr_done1.
  - rewrite existsb_app, orb_true_iff. split.
    + intros [H|H]; [|now apply gr_fail1].
      apply gr_fail0 in H as [msg H]. discriminate.
    + intros H. right. now apply gr_fail1.
  - rewrite existsb_app, gr_refs0, gr_refs1. reflexivity.
  - intros s h rep. rewrite elem_of_app. intros [H|H]; eauto.
Qed.

Lemma good_bind C {A B} (m : M A) (k : A -> M B) :
  good C m -> (forall a, good C (k a)) -> good C (bind m k).
Proof.
  intros Hm Hk st. destruct (Hm st) as [evs1 G1]. unfold bind.
  destruct (m st) as [[a|e|] st1] eqn:E; simpl in G1.
  - destruct (Hk a st1) as [evs2 G2]. exists (evs1 ++ evs2).
    eapply good_run_seq; eauto.
  - exists evs1. simpl. destruct G1. split; auto.
    + intros Hr. now destruct (Hr e).
    + rewrite gr_fail0. split; intros [msg H]; exists msg; congruence.
  - exists evs1. simpl. destruct G1. split; auto.
    split; [intros H; apply gr_fail0 in H as [msg H]; discriminate
           | intros [msg H]; discriminate].
Qed.

Lemma good_for_each C {A} (xs : list A) (body : A -> M unit) :
  (forall x, good C (body x)) -> good C (for_each xs body).
Proof.
  intros Hb. induction xs as [|x xs IH]; simpl.
  - apply good_ret.
  - apply good_bind; [apply Hb | intros _; exact IH].
Qed.

(** A request that is answered, for a hash not fetched so far, followed by
    a run that starts with the hash in [fetched]. *)
Lemma good_run_step C {A} (st : state) (ev : event) (h : string)
    (r : outcome A) (st2 : state) (evs : list event) :
  requested ev = Some h -> failed_request ev = false ->
  (forall s h' rep, ev = RequestObject s h' rep -> C s h') ->
  h ∉ fetched st ->
  good_run C (State ({[h]} ∪ fetched st) (trace st ++ [ev])) r st2 evs ->
  good_run C st r st2 (ev :: evs).
Proof.
  intros Hq Hf Hs Hh G. destruct G; simpl in *.
  assert (Hreq : requested_hashes (ev :: evs) = h :: requested_hashes evs).
  { unfold requested_hashes. simpl. now rewrite Hq. }
  assert (Hw : is_ref_write ev = false) by (destruct ev; simpl in *; congruence).
  split.
  - rewrite gr_trace0. now rewrite <- app_assoc.
  - intros x Hx. apply gr_mono0. apply elem_of_union. now right.
  - rewrite Hreq. apply NoDup_cons. split; [|assumption].
    intros Hin. apply (gr_fresh0 h Hin). apply elem_of_union. left.
    now apply elem_of_singleton.
  - rewrite Hreq. intros x Hx. apply elem_of_cons in Hx as [->|Hx]; [assumption|].
    intros Hin. apply (gr_fresh0 x Hx). apply elem_of_union. now right.
  - rewrite Hreq. intros Hr x Hx. apply elem_of_cons in Hx as [->|Hx].
    + apply gr_mono0. apply elem_of_union. left. now apply elem_of_singleton.
    + now apply gr_done0.
  - simpl. now rewrite Hf.
  - simpl. now rewrite Hw.
  - intros s h' rep Hin. apply elem_of_cons in Hin as [E|Hin]; eauto.
Qed.

(** A request that returns nothing, and the exception that follows it. *)
Lemma good_run_failed C {A} (st : state) (ev : event) (h msg : string)
    (F : gset string) :
  requested ev = Some h -> failed_request ev = true ->
  (forall s h' rep, ev = RequestObject s h' rep -> C s h') ->
  h ∉ fetched st -> fetched st ⊆ F ->
  good_run C st (@Raised A (ClickException msg))
    (State F (trace st ++ [ev])) [ev].
Proof.
  intros Hq Hf Hs Hh HF.
  assert (Hreq : requested_hashes [ev] = [h]).
  { unfold requested_hashes. simpl. now rewrite Hq. }
  assert (Hw : is_ref_write ev = false) by (destruct ev; simpl in *; congruence).
  split.
  - reflexivity.
  - assumption.
  - rewrite Hreq. apply NoDup_singleton.
  - rewrite Hreq. intros x Hx. apply list_elem_of_singleton in Hx. now subst.
  - intros Hr. now destruct (Hr (ClickException msg)).
  - simpl. rewrite Hf. split; [now exists msg | reflexivity].
  - simpl. now rewrite Hw.
  - intros s h' rep Hin. apply list_elem_of_singleton in Hin. eauto.
Qed.

Lemma truthy_bytes_failed (r : option bytes) :
  truthy_bytes r = None -> forall s h,
  failed_request (RequestObject s h r) = true
  /\ failed_request (RequestBlock h r) = true.
Proof. intros H s h. simpl. now rewrite H. Qed.

Lemma truthy_bytes_answered (r : option bytes) (data : bytes) :
  truthy_bytes r = Some data -> r = Some data /\ data <> [] /\ forall s h,
  failed_request (RequestObject s h r) = false
  /\ failed_request (RequestBlock h r) = false.
Proof.
  intros H. destruct r as [[|b bs]|]; simpl in H; try discriminate.
  injection H as <-. repeat split; discriminate.
Qed.

Section RemoteRuns.

Variable w : world.

(** The three guarded requests of remote.py: a hash is looked up in
    [fetched], requested when it is not there, and added to [fetched]
    (after the reply at lines 218-222, 240-244 and 254-258; before the
    request at lines 184-190). *)
Lemma good_guarded_block C (h msg : string) (K : bytes -> M unit) :
  (forall data, good C (K data)) ->
  good C (seen <- is_fetched h ;;
          if seen then ret tt
          else
            block_data <- client_request_block w h ;;
            match truthy_bytes block_data with
            | None => raise (ClickException msg)
            | Some data => fetched_add h ;;; K data
            end).
Proof.
  intros HK st. unfold bind, is_fetched, client_request_block, get_trace,
    emit, fetched_add, ret, raise; simpl.
  case_bool_decide as Hin; simpl.
  - exists []. now apply good_run_nil.
  - destruct (truthy_bytes (request_block w (trace st) h)) as [data|] eqn:T.
    + destruct (truthy_bytes_answered _ _ T) as (_ & _ & Hf).
      destruct (HK data (State ({[h]} ∪ fetched st)
                  (trace st ++ [RequestBlock h (request_block w (trace st) h)])))
        as [evs G].
      eexists. eapply good_run_step; [| | | exact Hin | exact G].
      * reflexivity.
      * apply (Hf AtBlob h).
      * discriminate.
    + eexists. eapply good_run_failed; [| | | exact Hin | reflexivity].
      * reflexivity.
      * apply (truthy_bytes_failed _ T AtBlob h).
      * discriminate.
Qed.

Lemma good_guarded_object (C : site -> string -> Prop) (s : site)
    (h msg : string) (K : bytes -> M unit) :
  C s h ->
  (forall data, good C (K data)) ->
  good C (seen <- is_fetched h ;;
          if seen then ret tt
          else
            obj_data <- client_request_object w s h ;;
            match truthy_bytes obj_data with
            | None => raise (ClickException msg)
            | Some data => fetched_add h ;;; K data
            end).
Proof.
  intros HC HK st. unfold bind, is_fetched, client_request_object, get_trace,
    emit, fetched_add, ret, raise; simpl.
  case_bool_decide as Hin; simpl.
  - exists []. now apply good_run_nil.
  - destruct (truthy_bytes (request_object w (trace st) h)) as [data|] eqn:T.
    + destruct (truthy_bytes_answered _ _ T) as (_ & _ & Hf).
      destruct (HK data (State ({[h]} ∪ fetched st)
                  (trace st ++ [RequestObject s h (request_object w (trace st) h)])))
        as [evs G].
      eexists. eapply good_run_step; [| | | exact Hin | exact G].
      * reflexivity.
      * apply (Hf s h).
      * intros s' h' rep E. injection E as <- <- _. exact HC.
    + eexists. eapply good_run_failed; [| | | exact Hin | reflexivity].
      * reflexivity.
      * apply (truthy_bytes_failed _ T s h).
      * intros s' h' rep E. injection E as <- <- _. exact HC.
Qed.

Lemma good_guarded_commit (C : site -> string -> Prop) (s : site)
    (h msg : string) (K : bytes -> M unit) :
  C s h ->
  (forall data, good C (K data)) ->
  good C (seen <- is_fetched h ;;
          if seen then ret tt
          else
            fetched_add h ;;;
            obj_data <- client_request_object w s h ;;
            match truthy_bytes obj_data with
            | None => raise (ClickException msg)
            | Some data => K data
            end).
Proof.
  intros HC HK st. unfold bind, is_fetched, client_request_object, get_trace,
    emit, fetched_add, ret, raise; simpl.
  case_bool_decide as Hin; simpl.
  - exists []. now apply good_run_nil.
  - destruct (truthy_bytes (request_object w (trace st) h)) as [data|] eqn:T.
    + destruct (truthy_bytes_answered _ _ T) as (_ & _ & Hf).
      destruct (HK data (State ({[h]} ∪ fetched st)
                  (trace st ++ [RequestObject s h (request_object w (trace st) h)])))
        as [evs G].
      eexists. eapply good_run_step; [| | | exact Hin | exact G].
      * reflexivity.
      * apply (Hf s h).
      * intros s' h' rep E. injection E as <- <- _. exact HC.
    + eexists. eapply good_run_failed; [| | | exact Hin | ].
      * reflexivity.
      * apply (truthy_bytes_failed _ T s h).
      * intros s' h' rep E. injection E as <- <- _. exact HC.
      * simpl. apply union_subseteq_r.
Qed.

Lemma good_loads C (data : bytes) : good C (loads w data).
Proof.
  unfold loads. destruct (json_loads w data); [apply good_ret | apply good_raise_decode].
Qed.

Lemma quiet_SaveObject h o : quiet (SaveObject h o).
Proof. repeat split; discriminate. Qed.
Lemma quiet_StoreBlock d n h : quiet (StoreBlock d n h).
Proof. repeat split; discriminate. Qed.
Lemma quiet_Echo msg : quiet (Echo msg).
Proof. repeat split; discriminate. Qed.

Lemma good_fetch_block C (block_hash : string) :
  good C (fetch_block w block_hash).
Proof.
  unfold fetch_block. apply good_guarded_block. intros data.
  apply good_bind; [apply good_emit, quiet_StoreBlock|]. intros _.
  destruct (negb _); [apply good_emit, quiet_Echo | apply good_ret].
Qed.

Lemma good_fetch_entry (C : site -> string -> Prop)
    (path_filter : option string) (current_path : string)
    (entry : string * entry_data) :
  (forall h, C AtBlob h) ->
  good C (fetch_entry w path_filter current_path entry).
Proof.
  intros HC. unfold fetch_entry. destruct entry as [entry_name ed].
  match goal with |- context [if ?b then ret tt else _] => destruct b end;
    [apply good_ret|].
  apply good_guarded_object; [apply HC|]. intros data.
  apply good_bind; [apply good_loads|]. intros blob_dict.
  apply good_bind; [apply good_emit, quiet_SaveObject|]. intros _.
  destruct (block_hashes blob_dict); [|apply good_ret].
  apply good_for_each. intros x. apply good_fetch_block.
Qed.

Lemma good_fetch_tree (C : site -> string -> Prop) (tree_hash : string)
    (path_filter : option string) (current_path : string) :
  C AtTree tree_hash -> (forall h, C AtBlob h) ->
  good C (_fetch_tree_recursive w tree_hash path_filter current_path).
Proof.
  intros HT HB. unfold _fetch_tree_recursive.
  apply good_guarded_object; [exact HT|]. intros data.
  apply good_bind; [apply good_loads|]. intros tree_dict.
  apply good_bind; [apply good_emit, quiet_SaveObject|]. intros _.
  destruct (entries tree_dict); [|apply good_ret].
  apply good_for_each. intros x. now apply good_fetch_entry.
Qed.

Lemma fetch_objects_unfold (fuel : nat) (object_hash : string)
    (depth : option Z) (current_depth : Z) (path_filter : option string) :
  _fetch_objects_recursive w (S fuel) object_hash depth current_depth path_filter
  = (seen <- is_fetched object_hash ;;
     if seen then ret tt
     else
       fetched_add object_hash ;;;
       obj_data <- client_request_object w (AtCommit current_depth) object_hash ;;
       match truthy_bytes obj_data with
       | None =>
           raise (ClickException ("Failed to fetch object " +:+ object_hash))
       | Some data =>
           commit_received w fuel object_hash depth current_depth path_filter data
       end).
Proof. reflexivity. Qed.

Lemma good_tree_step (C : site -> string -> Prop) (obj : obj_dict)
    (path_filter : option string) :
  (forall h, C AtTree h) -> (forall h, C AtBlob h) ->
  good C (tree_step w obj path_filter).
Proof.
  intros HT HB. unfold tree_step. destruct (tree_root obj); [|apply good_ret].
  now apply good_fetch_tree.
Qed.

Lemma good_commit_received (fuel : nat) (object_hash : string)
    (depth : option Z) (current_depth : Z) (path_filter : option string)
    (data : bytes) :
  (forall p, good (commit_sites p depth (current_depth + 1))
               (_fetch_objects_recursive w fuel p depth (current_depth + 1)
                  path_filter)) ->
  good (commit_sites object_hash depth current_depth)
    (commit_received w fuel object_hash depth current_depth path_filter data).
Proof.
  intros IH. unfold commit_received.
  apply good_bind; [apply good_loads|]. intros obj.
  apply good_bind; [apply good_emit, quiet_SaveObject|]. intros _.
  apply good_bind; [|intros _; now apply good_tree_step].
  unfold parent_step.
  destruct (truthy_parent obj) as [p|]; [|apply good_ret].
  destruct (within_depth depth current_depth) eqn:Hd; [|apply good_ret].
  eapply good_weaken; [|apply IH].
  intros s h. destruct s as [k| |]; simpl; auto.
  intros [Hk Hb]. split; [right; lia|].
  intros d ->. specialize (Hb d eq_refl). simpl in Hd.
  apply Z.ltb_lt in Hd. lia.
Qed.

Lemma good_fetch_objects (fuel : nat) (object_hash : string)
    (depth : option Z) (current_depth : Z) (path_filter : option string) :
  good (commit_sites object_hash depth current_depth)
    (_fetch_objects_recursive w fuel object_hash depth current_depth path_filter).
Proof.
  revert object_hash current_depth.
  induction fuel as [|fuel IH]; intros object_hash current_depth.
  - apply good_out_of_fuel.
  - rewrite fetch_objects_unfold. apply good_guarded_commit.
    { simpl. split; [left; now split | intros d _; lia]. }
    intros data. apply good_commit_received. intros p. apply IH.
Qed.

(** The three ways a call of [_fetch_objects_recursive] starts. *)
Lemma fetch_objects_seen (fuel : nat) (h : string) (depth : option Z)
    (cd : Z) (pf : option string) (st : state) :
  h ∈ fetched st ->
  _fetch_objects_recursive w (S fuel) h depth cd pf st = (Returned tt, st).
Proof.
  intros Hin. rewrite fetch_objects_unfold. unfold bind, is_fetched, ret.
  now rewrite bool_decide_eq_true_2.
Qed.

Lemma fetch_objects_answered (fuel : nat) (h : string) (depth : option Z)
    (cd : Z) (pf : option string) (st : state) (data : bytes) :
  h ∉ fetched st ->
  truthy_bytes (request_object w (trace st) h) = Some data ->
  _fetch_objects_recursive w (S fuel) h depth cd pf st
  = commit_received w fuel h depth cd pf data
      (State ({[h]} ∪ fetched st)
         (trace st ++ [RequestObject (AtCommit cd) h (Some data)])).
Proof.
  intros Hin T. rewrite fetch_objects_unfold.
  unfold bind at 1, is_fetched. rewrite bool_decide_eq_false_2 by assumption.
  unfold bind at 1, fetched_add.
  unfold bind at 1, client_request_object, bind, get_trace, emit, ret.
  cbn [trace fetched]. rewrite T.
  now destruct (truthy_bytes_answered _ _ T) as (-> & _).
Qed.

Lemma fetch_objects_unanswered (fuel : nat) (h : string) (depth : option Z)
    (cd : Z) (pf : option string) (st : state) :
  h ∉ fetched st ->
  truthy_bytes (request_object w (trace st) h) = None ->
  _fetch_objects_recursive w (S fuel) h depth cd pf st
  = (Raised (ClickException ("Failed to fetch object " +:+ h)),
     State ({[h]} ∪ fetched st)
       (trace st ++ [RequestObject (AtCommit cd) h
                       (request_object w (trace st) h)])).
Proof.
  intros Hin T. rewrite fetch_objects_unfold.
  unfold bind at 1, is_fetched. rewrite bool_decide_eq_false_2 by assumption.
  unfold bind at 1, fetched_add.
  unfold bind at 1, client_request_object, bind, get_trace, emit, ret.
  cbn [trace fetched]. now rewrite T.
Qed.

(** After a call with fuel, its hash is in [fetched] whatever the outcome. *)
Lemma fetch_objects_marks (fuel : nat) (h : string) (depth : option Z)
    (cd : Z) (pf : option string) (st : state) :
  h ∈ fetched (snd (_fetch_objects_recursive w (S fuel) h depth cd pf st)).
Proof.
  destruct (decide (h ∈ fetched st)) as [Hin|Hin].
  - now rewrite fetch_objects_seen.
  - destruct (truthy_bytes (request_object w (trace st) h)) as [data|] eqn:T.
    + rewrite (fetch_objects_answered _ _ _ _ _ _ _ Hin T).
      match goal with |- _ ∈ fetched (snd (?m ?s)) =>
        destruct (good_commit_received fuel h depth cd pf data
                    (fun p => good_fetch_objects fuel p depth (cd + 1) pf) s)
          as [evs G]
      end.
      apply (gr_mono _ _ _ _ _ G). cbn [fetched].
      apply elem_of_union. left. now apply elem_of_singleton.
    + rewrite (fetch_objects_unanswered _ _ _ _ _ _ Hin T). cbn [snd fetched].
      apply elem_of_union. left. now apply elem_of_singleton.
Qed.

End RemoteRuns.

(** ** Deduplication *)

Example same_blob_twice :
  requested_hashes
    (run_events (_fetch_objects_recursive twice_world 2 "c1" None 0 None)
       initial_state)
  = ["c1"; "t1"; "blob1"; "hello"].
Proof. vm_compute. reflexivity. Qed.

(** C6: in one traversal no hash is requested twice, by [request_object] or
    [request_block], and no hash already in the visited set is requested,
    whatever the trees repeat; a second fetch of the same commit over the
    visited set the first one left returns without any event. *)
Theorem fetch_requests_each_hash_once (w : world) (fuel fuel' : nat)
    (object_hash : string) (depth : option Z) (current_depth : Z)
    (path_filter : option string) (st : state) :
  let run n :=
    _fetch_objects_recursive w n object_hash depth current_depth path_filter in
  NoDup (requested_hashes (run_events (run fuel) st))
  /\ (forall h, h ∈ requested_hashes (run_events (run fuel) st) ->
                h ∉ fetched st)
  /\ run (S fuel') (snd (run (S fuel) st))
     = (Returned tt, snd (run (S fuel) st)).
Proof.
  intros run.
  pose proof (good_run_events _ (run fuel) st
                (good_fetch_objects w fuel object_hash depth current_depth
                   path_filter)) as G.
  split; [exact (gr_nodup _ _ _ _ _ G)|].
  split; [exact (gr_fresh _ _ _ _ _ G)|].
  apply fetch_objects_seen, fetch_objects_marks.
Qed.

(** ** Failed requests *)

Lemma for_each_emit {A} (f : A -> event) (xs : list A) (st : state) :
  for_each xs (fun x => emit (f x)) st
  = (Returned tt, State (fetched st) (trace st ++ map f xs)).
Proof.
  revert st. induction xs as [|x xs IH]; intros [F tr]; simpl.
  - unfold ret. now rewrite app_nil_r.
  - unfold bind, emit at 1. simpl. rewrite IH. simpl.
    now rewrite <- app_assoc.
Qed.

Lemma existsb_failed_map_WriteRef (refs : list (string * string)) :
  existsb failed_request (map (fun ref => WriteRef (fst ref) (snd ref)) refs)
  = false.
Proof. induction refs as [|x xs IH]; simpl; auto. Qed.

Ltac run_done :=
  unfold raise, bind, emit, ret; cbn [fst snd trace fetched negb];
  rewrite <- ?app_assoc; reflexivity.

(** [clone_repository], one case after the other. *)
Lemma clone_repository_run (w : world) (fuel : nat) (url target_dir : string)
    (depth : option Z) (path_filter : option string) (st : state) :
  clone_repository w fuel url target_dir depth path_filter st =
    if target_dir_not_empty w then
      (Returned false,
       add_events st [clone_failed (ClickException
          ("Target directory '" +:+ target_dir +:+ "' is not empty."))])
    else if negb (config_loaded w) then
      (Returned false,
       add_events st [clone_failed
          (ClickException "Repository configuration not loaded.")])
    else
      let ok := handshake w (trace st) in
      let refs := request_refs w (trace st ++ [Handshake ok]) in
      if negb ok then
        (Returned false,
         add_events st [Handshake ok; clone_failed
            (ClickException "Failed to connect to remote repository.")])
      else
        match refs with
        | [] =>
            (Returned false,
             add_events st [Handshake ok; RequestRefs refs; clone_failed
                (ClickException "No refs found on remote repository.")])
        | _ :: _ =>
            match truthy_opt_str (dict_get "main" refs) with
            | None =>
                (Returned false,
                 add_events st [Handshake ok; RequestRefs refs; clone_failed
                    (ClickException "Remote repository has no main branch.")])
            | Some main_commit =>
                match _fetch_objects_recursive w fuel main_commit depth 0
                        path_filter
                        (State ∅ (trace st ++ [Handshake ok; RequestRefs refs]))
                with
                | (Returned _, st') =>
                    (Returned true,
                     add_events st'
                       (map (fun ref => WriteRef (fst ref) (snd ref)) refs
                        ++ [WriteHead "ref: refs/heads/main";
                            RestoreWorkingTree;
                            Echo (clone_info url target_dir depth path_filter)]))
                | (Raised e, st') =>
                    (Returned false, add_events st' [clone_failed e])
                | (OutOfFuel, st') => (OutOfFuel, st')
                end
            end
        end.
Proof.
  unfold clone_repository, try_except, add_events, clone_failed.
  destruct (target_dir_not_empty w); [reflexivity|].
  destruct (config_loaded w); [|reflexivity]. cbn [negb].
  unfold bind at 1. unfold client_handshake, bind at 1, get_trace, bind at 1,
    emit at 1, ret at 1.
  cbn [fst snd trace fetched].
  destruct (handshake w (trace st)); cbn [negb]; [|run_done].
  unfold bind at 1. unfold client_request_refs, bind at 1, get_trace, bind at 1,
    emit at 1, ret at 1.
  cbn [fst snd trace fetched]. rewrite <- app_assoc. cbn [app].
  destruct (request_refs w (trace st ++ [Handshake true])) as [|ref refs] eqn:R;
    [run_done|].
  destruct (truthy_opt_str (dict_get "main" (ref :: refs))) as [main_commit|];
    [|run_done].
  unfold bind at 1, fetched_new at 1. unfold bind at 1. cbn [fst snd trace fetched].
  destruct (_fetch_objects_recursive w fuel main_commit depth 0 path_filter _)
    as [[[]|e|] st'].
  - unfold bind at 1. rewrite for_each_emit. run_done.
  - reflexivity.
  - reflexivity.
Qed.

Lemma events_since_add (st : state) (evs : list event) :
  events_since st (add_events st evs) = evs.
Proof. now apply events_since_app. Qed.

Lemma events_since_later (st st' : state) (F : gset string)
    (pre evs post : list event) :
  trace st' = trace (State F (trace st ++ pre)) ++ evs ->
  events_since st (add_events st' post) = pre ++ evs ++ post.
Proof.
  intros H. apply events_since_app. unfold add_events. cbn [trace] in *.
  rewrite H. now rewrite <- !app_assoc.
Qed.

(** [pull_from_remote], one case after the other. *)
Lemma pull_from_remote_run (w : world) (fuel : nat)
    (remote_name branch : string) (st : state) :
  pull_from_remote w fuel remote_name branch st =
    match get_remote w remote_name with
    | None =>
        (Returned false,
         add_events st [pull_failed (ClickException
            ("Remote '" +:+ remote_name +:+ "' not found."))])
    | Some _ =>
        let ok := handshake w (trace st) in
        let refs := request_refs w (trace st ++ [Handshake ok]) in
        if negb ok then
          (Returned false,
           add_events st [Handshake ok; pull_failed
              (ClickException "Failed to connect to remote repository.")])
        else
          match truthy_opt_str (dict_get branch refs) with
          | None =>
              (Returned false,
               add_events st [Handshake ok; RequestRefs refs; pull_failed
                  (ClickException
                     ("Remote branch '" +:+ branch +:+ "' not found."))])
          | Some remote_commit =>
              if bool_decide (_get_head_commit w = Some remote_commit) then
                (Returned true,
                 add_events st [Handshake ok; RequestRefs refs;
                                Echo "Already up to date."])
              else
                match _fetch_objects_recursive w fuel remote_commit None 0 None
                        (State ∅ (trace st ++ [Handshake ok; RequestRefs refs]))
                with
                | (Returned _, st') =>
                    (Returned true,
                     add_events st'
                       [WriteRef branch remote_commit; RestoreWorkingTree;
                        Echo ("Pulled changes from " +:+ remote_name
                                +:+ "/" +:+ branch)])
                | (Raised e, st') =>
                    (Returned false, add_events st' [pull_failed e])
                | (OutOfFuel, st') => (OutOfFuel, st')
                end
          end
    end.
Proof.
  unfold pull_from_remote, try_except, add_events, pull_failed.
  destruct (get_remote w remote_name); [|reflexivity].
  unfold bind at 1. unfold client_handshake, bind at 1, get_trace, bind at 1,
    emit at 1, ret at 1.
  cbn [fst snd trace fetched].
  destruct (handshake w (trace st)); cbn [negb]; [|run_done].
  unfold bind at 1. unfold client_request_refs, bind at 1, get_trace, bind at 1,
    emit at 1, ret at 1.
  cbn [fst snd trace fetched]. rewrite <- app_assoc. cbn [app].
  cbv zeta.
  destruct (truthy_opt_str (dict_get branch _)) as [remote_commit|];
    [|run_done].
  case_bool_decide; [run_done|].
  unfold bind at 1, fetched_new at 1. unfold bind at 1. cbn [fst snd trace fetched].
  destruct (_fetch_objects_recursive w fuel remote_commit None 0 None _)
    as [[[]|e|] st'].
  - run_done.
  - reflexivity.
  - reflexivity.
Qed.

Lemma good_run_no_failure C {A} (st st' : state) (r : outcome A)
    (evs : list event) :
  good_run C st r st' evs ->
  (forall msg, r <> Raised (ClickException msg)) ->
  existsb failed_request evs = false.
Proof.
  intros G Hr. destruct (existsb failed_request evs) eqn:E; [|reflexivity].
  apply (gr_fail _ _ _ _ _ G) in E as [msg E]. now destruct (Hr msg).
Qed.

(** C4: a request that returns nothing ([None] or empty bytes) makes the
    fetch raise a [ClickException]; [clone_repository] and
    [pull_from_remote] then return [False], and their trace has no write to
    a ref file or to HEAD. *)
Theorem failed_request_aborts (w : world) (fuel : nat) (st : state) :
  (forall object_hash depth current_depth path_filter,
      let run := _fetch_objects_recursive w fuel object_hash depth
                   current_depth path_filter in
      existsb failed_request (run_events run st) = true ->
      exists msg, fst (run st) = Raised (ClickException msg))
  /\ (forall url target_dir depth path_filter,
      let run := clone_repository w fuel url target_dir depth path_filter in
      existsb failed_request (run_events run st) = true ->
      fst (run st) = Returned false
      /\ existsb is_ref_write (run_events run st) = false)
  /\ (forall remote_name branch,
      let run := pull_from_remote w fuel remote_name branch in
      existsb failed_request (run_events run st) = true ->
      fst (run st) = Returned false
      /\ existsb is_ref_write (run_events run st) = false).
Proof.
  split; [|split].
  - intros object_hash depth current_depth path_filter run Hf.
    pose proof (good_run_events _ run st
                  (good_fetch_objects w fuel object_hash depth current_depth
                     path_filter)) as G.
    now apply (gr_fail _ _ _ _ _ G).
  - intros url target_dir depth path_filter run.
    unfold run_events. subst run. rewrite clone_repository_run.
    destruct (target_dir_not_empty w);
      [cbn [fst snd]; rewrite events_since_add; simpl; discriminate|].
    destruct (negb (config_loaded w));
      [cbn [fst snd]; rewrite events_since_add; simpl; discriminate|].
    cbv zeta.
    destruct (negb (handshake w (trace st)));
      [cbn [fst snd]; rewrite events_since_add; simpl; discriminate|].
    destruct (request_refs w _) as [|ref refs];
      [cbn [fst snd]; rewrite events_since_add; simpl; discriminate|].
    destruct (truthy_opt_str _) as [main_commit|];
      [|cbn [fst snd]; rewrite events_since_add; simpl; discriminate].
    match goal with |- context [_fetch_objects_recursive w fuel ?h ?d ?c ?p ?s] =>
      destruct (good_fetch_objects w fuel h d c p s) as [evs G];
      destruct (_fetch_objects_recursive w fuel h d c p s) as [[[]|e|] st']
    end; cbn [fst snd] in *.
    + rewrite (events_since_later _ _ _ _ _ _ (gr_trace _ _ _ _ _ G)).
      rewrite !existsb_app, (good_run_no_failure _ _ _ _ _ G) by discriminate.
      rewrite existsb_failed_map_WriteRef. simpl. discriminate.
    + rewrite (events_since_later _ _ _ _ _ _ (gr_trace _ _ _ _ _ G)).
      intros _. split; [reflexivity|].
      rewrite !existsb_app, (gr_refs _ _ _ _ _ G). reflexivity.
    + replace st' with (add_events st' []) at 1 2
        by (destruct st'; unfold add_events; simpl; now rewrite app_nil_r).
      rewrite (events_since_later _ _ _ _ _ _ (gr_trace _ _ _ _ _ G)).
      rewrite !existsb_app, (good_run_no_failure _ _ _ _ _ G) by discriminate.
      simpl. discriminate.
  - intros remote_name branch run.
    unfold run_events. subst run. rewrite pull_from_remote_run.
    destruct (get_remote w remote_name);
      [|cbn [fst snd]; rewrite events_since_add; simpl; discriminate].
    cbv zeta.
    destruct (negb (handshake w (trace st)));
      [cbn [fst snd]; rewrite events_since_add; simpl; discriminate|].
    destruct (truthy_opt_str _) as [remote_commit|];
      [|cbn [fst snd]; rewrite events_since_add; simpl; discriminate].
    case_bool_decide;
      [cbn [fst snd]; rewrite events_since_add; simpl; discriminate|].
    match goal with |- context [_fetch_objects_recursive w fuel ?h ?d ?c ?p ?s] =>
      destruct (good_fetch_objects w fuel h d c p s) as [evs G];
      destruct (_fetch_objects_recursive w fuel h d c p s) as [[[]|e|] st']
    end; cbn [fst snd] in *.
    + rewrite (events_since_later _ _ _ _ _ _ (gr_trace _ _ _ _ _ G)).
      rewrite !existsb_app, (good_run_no_failure _ _ _ _ _ G) by discriminate.
      simpl. discriminate.
    + rewrite (events_since_later _ _ _ _ _ _ (gr_trace _ _ _ _ _ G)).
      intros _. split; [reflexivity|].
      rewrite !existsb_app, (gr_refs _ _ _ _ _ G). reflexivity.
    + replace st' with (add_events st' []) at 1 2
        by (destruct st'; unfold add_events; simpl; now rewrite app_nil_r).
      rewrite (events_since_later _ _ _ _ _ _ (gr_trace _ _ _ _ _ G)).
      rewrite !existsb_app, (good_run_no_failure _ _ _ _ _ G) by discriminate.
      simpl. discriminate.
Qed.

Lemma failed_request_aborts_witness :
  let run := clone_repository broken_world 3 "cof://h/r" "work" None None in
  existsb failed_request (run_events run initial_state) = true
  /\ fst (run initial_state) = Returned false
  /\ existsb is_ref_write (run_events run initial_state) = false.
Proof.
  split; [vm_compute; reflexivity|].
  apply (proj1 (proj2 (failed_request_aborts broken_world 3 initial_state))
           "cof://h/r" "work" None None).
  vm_compute. reflexivity.
Defined.

(** ** Pull when up to date *)

(** C10: when the remote is known, the handshake and the refs request
    succeed and the branch's commit hash is the local head commit,
    [pull_from_remote] returns [True]; its whole trace is the handshake, the
    refs request and the message, so it holds no object or block request,
    no write to a ref and no restore of the working tree, and the visited
    set is left as it was. *)
Theorem pull_up_to_date (w : world) (fuel : nat) (remote_name branch : string)
    (st : state) (url commit : string) :
  let refs := request_refs w (trace st ++ [Handshake true]) in
  let run := pull_from_remote w fuel remote_name branch in
  get_remote w remote_name = Some url ->
  handshake w (trace st) = true ->
  dict_get branch refs = Some commit ->
  commit <> "" ->
  _get_head_commit w = Some commit ->
  fst (run st) = Returned true
  /\ run_events run st
     = [Handshake true; RequestRefs refs; Echo "Already up to date."]
  /\ fetched (snd (run st)) = fetched st
  /\ forall e, e ∈ run_events run st ->
       is_request e = false /\ is_ref_write e = false
       /\ e <> RestoreWorkingTree.
Proof.
  intros refs run Hr Hh Hb Hc Hl.
  assert (E : run st = (Returned true,
                add_events st [Handshake true; RequestRefs refs;
                               Echo "Already up to date."])).
  { subst run. rewrite pull_from_remote_run, Hr, Hh. cbv zeta. cbn [negb].
    fold refs. rewrite Hb. cbn [truthy_opt_str].
    destruct commit as [|c commit']; [contradiction|]. cbn [truthy_str].
    now rewrite bool_decide_eq_true_2. }
  unfold run_events. rewrite E. cbn [fst snd]. rewrite events_since_add.
  split; [reflexivity|]. split; [reflexivity|]. split; [reflexivity|].
  intros e H.
  repeat (apply elem_of_cons in H as [->|H]; [repeat split; discriminate|]).
  now apply elem_of_nil in H.
Qed.

Lemma pull_up_to_date_witness :
  let w := chain_world (Some "C3") in
  let run := pull_from_remote w 0 "origin" "main" in
  fst (run initial_state) = Returned true
  /\ run_events run initial_state
     = [Handshake true; RequestRefs [("main", "C3")];
        Echo "Already up to date."].
Proof.
  intros w run.
  destruct (pull_up_to_date w 0 "origin" "main" initial_state "cof://h/r" "C3")
    as (H1 & H2 & _); try reflexivity; [discriminate|].
  split; [exact H1 | exact H2].
Defined.

(** ** Block integrity *)

(** C3, as stated, fails: the only block of [tampered_world] arrives with
    bytes that the store names [HELLO] while the blob advertises [hello];
    the clone warns, keeps the block, writes the ref and returns [True]. *)
Lemma clone_keeps_mismatched_block :
  let run := clone_repository tampered_world 3 "cof://h/r" "work" None None in
  fst (run initial_state) = Returned true
  /\ RequestBlock "hello" (Some (list_byte_of_string "HELLO"))
       ∈ run_events run initial_state
  /\ StoreBlock (list_byte_of_string "HELLO") 0 "HELLO"
       ∈ run_events run initial_state
  /\ Echo "Warning: Block hash mismatch: HELLO != hello"
       ∈ run_events run initial_state
  /\ WriteRef "main" "c1" ∈ run_events run initial_state.
Proof.
  cbv zeta. split; [vm_compute; reflexivity|].
  repeat split; apply list_elem_of_In; vm_compute; tauto.
Qed.

(** C3, amended: when the hash the store returns for the bytes of a fetched
    block differs from the advertised hash, the fetch of that block stores
    the bytes, marks the hash as visited, prints the warning and returns
    normally; and a traversal raises a [ClickException] only when one of
    its requests returned nothing. *)
Theorem block_mismatch_only_warns (w : world) (block_hash : string)
    (st : state) (data : bytes) :
  block_hash ∉ fetched st ->
  request_block w (trace st) block_hash = Some data ->
  data <> [] ->
  store_block w data 0 <> block_hash ->
  fetch_block w block_hash st
  = (Returned tt,
     State ({[block_hash]} ∪ fetched st)
       (trace st
        ++ [RequestBlock block_hash (Some data);
            StoreBlock data 0 (store_block w data 0);
            Echo ("Warning: Block hash mismatch: " +:+ store_block w data 0
                    +:+ " != " +:+ block_hash)]))
  /\ forall fuel object_hash depth current_depth path_filter st0 msg,
       let run := _fetch_objects_recursive w fuel object_hash depth
                    current_depth path_filter in
       fst (run st0) = Raised (ClickException msg) ->
       existsb failed_request (run_events run st0) = true.
Proof.
  intros Hin Hreq Hdata Hneq. split.
  - unfold fetch_block.
    unfold bind at 1, is_fetched. rewrite bool_decide_eq_false_2 by assumption.
    unfold bind at 1, client_request_block, bind, get_trace, emit, ret,
      fetched_add.
    cbn [trace fetched]. rewrite Hreq.
    destruct data as [|b bs]; [contradiction|]. cbn [truthy_bytes].
    destruct (String.eqb_spec (store_block w (b :: bs) 0) block_hash) as [E|E];
      [contradiction|].
    cbn [negb trace fetched]. now rewrite <- !app_assoc.
  - intros fuel object_hash depth current_depth path_filter st0 msg run Hr.
    pose proof (good_run_events _ run st0
                  (good_fetch_objects w fuel object_hash depth current_depth
                     path_filter)) as G.
    apply (gr_fail _ _ _ _ _ G). now exists msg.
Qed.

Lemma block_mismatch_only_warns_witness :
  let st := initial_state in
  fst (fetch_block tampered_world "hello" st) = Returned tt
  /\ trace (snd (fetch_block tampered_world "hello" st))
     = [RequestBlock "hello" (Some (list_byte_of_string "HELLO"));
        StoreBlock (list_byte_of_string "HELLO") 0 "HELLO";
        Echo "Warning: Block hash mismatch: HELLO != hello"].
Proof.
  intros st.
  destruct (block_mismatch_only_warns tampered_world "hello" st
              (list_byte_of_string "HELLO")) as [E _].
  - apply not_elem_of_empty.
  - reflexivity.
  - discriminate.
  - vm_compute. discriminate.
  - rewrite E. split; reflexivity.
Defined.

(** ** Nested trees *)

(** Whatever the tree holds, a call of [_fetch_tree_recursive] asks for one
    tree only, its own; every entry, [file] or [dir], is requested at the
    blob site. *)
Lemma fetch_tree_requests_one_tree (w : world) (tree_hash : string)
    (path_filter : option string) (current_path : string) (st : state)
    (s : site) (h : string) (rep : option bytes) :
  RequestObject s h rep
    ∈ run_events (_fetch_tree_recursive w tree_hash path_filter current_path) st ->
  (s = AtTree /\ h = tree_hash) \/ s = AtBlob.
Proof.
  intros Hev.
  apply (gr_sites _ _ _ _ _
           (good_run_events
              (fun s h => (s = AtTree /\ h = tree_hash) \/ s = AtBlob) _ st
              (good_fetch_tree w _ tree_hash path_filter current_path
                 (or_introl (conj eq_refl eq_refl))
                 (fun _ => or_intror eq_refl)))
           _ _ _ Hev).
Qed.

(** C1 fails on the code: [_fetch_tree_recursive] requests the hash of a
    [dir] entry the way it requests a blob and never reads the entries of
    the tree it gets.  On [nested_world] the clone succeeds with the
    objects [c1], [t1] and [t2] only; the blob of [docs/b.md] and its
    block are never requested. *)
Theorem subtree_entries_not_fetched :
  let run := clone_repository nested_world 3 "cof://h/r" "work" None None in
  fst (run initial_state) = Returned true
  /\ requested_hashes (run_events run initial_state) = ["c1"; "t1"; "t2"]
  /\ assoc "t2" nested_objects
     = Some (tree_obj [("b.md", EntryData file "blob1")])
  /\ ("blob1" ∉ requested_hashes (run_events run initial_state))
  /\ ("hello" ∉ requested_hashes (run_events run initial_state)).
Proof.
  cbv zeta.
  assert (E : requested_hashes
                (run_events
                   (clone_repository nested_world 3 "cof://h/r" "work" None None)
                   initial_state) = ["c1"; "t1"; "t2"])
    by (vm_compute; reflexivity).
  rewrite E. split; [vm_compute; reflexivity|].
  repeat split; try reflexivity; intros H;
    repeat (apply elem_of_cons in H as [H|H]; [discriminate|]);
    now apply elem_of_nil in H.
Qed.

(** ** Depth *)

Lemma run_events_trace C {A} (m : M A) (st : state) :
  good C m -> trace (snd (m st)) = trace st ++ run_events m st.
Proof. intros H. exact (gr_trace _ _ _ _ _ (good_run_events C m st H)). Qed.

Lemma events_since_trans (st st2 st3 : state) (pre evs : list event) :
  trace st2 = trace st ++ pre -> trace st3 = trace st2 ++ evs ->
  events_since st st3 = pre ++ evs.
Proof.
  intros H2 H3. apply events_since_app. rewrite H3, H2.
  now rewrite <- app_assoc.
Qed.

Lemma run_events_bind C {A B} (m : M A) (k : A -> M B) (st : state) :
  good C m -> (forall a, good C (k a)) ->
  run_events (bind m k) st
  = run_events m st
    ++ match fst (m st) with
       | Returned a => run_events (k a) (snd (m st))
       | _ => []
       end.
Proof.
  intros Hm Hk. pose proof (run_events_trace C m st Hm) as Tm.
  unfold run_events at 1. unfold bind.
  destruct (m st) as [[a|e|] st1] eqn:E; cbn [fst snd] in *.
  - eapply events_since_trans; [exact Tm|]. now apply (run_events_trace C).
  - rewrite app_nil_r. now apply events_since_app.
  - rewrite app_nil_r. now apply events_since_app.
Qed.

(** A call on a hash that is not in [fetched] starts with the request for
    that hash, tagged with the depth of the call. *)
Lemma fetch_objects_first_request (w : world) (fuel : nat) (h : string)
    (depth : option Z) (cd : Z) (pf : option string) (st : state) :
  h ∉ fetched st ->
  exists evs,
    run_events (_fetch_objects_recursive w (S fuel) h depth cd pf) st
    = RequestObject (AtCommit cd) h (request_object w (trace st) h) :: evs.
Proof.
  intros Hin. unfold run_events.
  destruct (truthy_bytes (request_object w (trace st) h)) as [data|] eqn:T.
  - rewrite (fetch_objects_answered w _ _ _ _ _ _ _ Hin T).
    destruct (truthy_bytes_answered _ _ T) as (-> & _).
    match goal with |- context [commit_received w fuel h depth cd pf data ?s] =>
      pose proof (run_events_trace _ _ s
                    (good_commit_received w fuel h depth cd pf data
                       (fun p => good_fetch_objects w fuel p depth (cd + 1) pf)))
        as Tr;
      exists (run_events (commit_received w fuel h depth cd pf data) s);
      exact (events_since_trans st s _
               [RequestObject (AtCommit cd) h (Some data)] _ eq_refl Tr)
    end.
  - rewrite (fetch_objects_unanswered w _ _ _ _ _ _ Hin T). cbn [snd].
    exists []. now apply events_since_app.
Qed.

(** C5: a call that fetches its commit at [current_depth] goes on to request
    the parent, one level deeper, exactly when the commit holds a parent
    hash that is neither null nor empty and [depth] is [None] or
    [current_depth < depth - 1] (the parent being a hash not visited so
    far), and the parent is then in the visited set when the call ends;
    with [depth = 1] the only commit requested is the tip. *)
Theorem parent_fetched_iff_within_depth (w : world) :
  (forall fuel object_hash depth current_depth path_filter st data obj p,
      let run := _fetch_objects_recursive w (S (S fuel)) object_hash depth
                   current_depth path_filter in
      let parent_in_depth :=
        parent obj = Some (Some p) /\ p <> ""
        /\ (depth = None
            \/ exists d, depth = Some d /\ (current_depth < d - 1)%Z) in
      object_hash ∉ fetched st ->
      request_object w (trace st) object_hash = Some data ->
      data <> [] ->
      json_loads w data = Some obj ->
      p ∉ fetched st -> p <> object_hash ->
      ((exists rep,
           RequestObject (AtCommit (current_depth + 1)) p rep ∈ run_events run st)
       <-> parent_in_depth)
      /\ (parent_in_depth -> p ∈ fetched (snd (run st))))
  /\ (forall fuel tip path_filter st k h rep,
      RequestObject (AtCommit k) h rep
        ∈ run_events (_fetch_objects_recursive w fuel tip (Some 1%Z) 0
                        path_filter) st ->
      k = 0%Z /\ h = tip).
Proof.
  split.
  - intros fuel h depth cd pf st data obj p run cond Hin Hreq Hdata Hobj Hp Hne.
    assert (Hcond : cond <-> truthy_parent obj = Some p
                             /\ within_depth depth cd = true).
    { subst cond. unfold truthy_parent, truthy_opt_str, within_depth.
      split.
      - intros (-> & Hp0 & Hd). split.
        + destruct p; [now contradiction Hp0 | reflexivity].
        + destruct Hd as [->|(d & -> & Hd)]; [reflexivity | now apply Z.ltb_lt].
      - intros [Hpar Hd]. repeat split.
        + destruct (parent obj) as [[q|]|]; try discriminate.
          destruct q; [discriminate | now injection Hpar as ->].
        + intros ->. destruct (parent obj) as [[q|]|]; try discriminate.
          destruct q; [discriminate | now injection Hpar].
        + destruct depth as [d|]; [right | now left].
          exists d. split; [reflexivity | now apply Z.ltb_lt]. }
    assert (T : truthy_bytes (request_object w (trace st) h) = Some data).
    { rewrite Hreq. now destruct data. }
    set (st2 := State ({[h]} ∪ fetched st)
                  (trace st ++ [RequestObject (AtCommit cd) h (Some data);
                                SaveObject h obj])).
    set (rest := parent_step w (S fuel) obj depth cd pf ;;; tree_step w obj pf).
    assert (E : run st = rest st2).
    { subst run. rewrite (fetch_objects_answered w _ _ _ _ _ _ _ Hin T).
      unfold commit_received, loads. rewrite Hobj.
      unfold bind at 1, ret at 1. unfold bind at 1, emit at 1.
      cbn [trace fetched]. now rewrite <- app_assoc. }
    set (C' := fun (s : site) (h' : string) =>
                 match s with
                 | AtCommit k =>
                     k = (cd + 1)%Z ->
                     truthy_parent obj = Some h'
                     /\ within_depth depth cd = true
                 | _ => True
                 end).
    assert (GP : good C' (parent_step w (S fuel) obj depth cd pf)).
    { unfold parent_step.
      destruct (truthy_parent obj) as [p'|]; [|apply good_ret].
      destruct (within_depth depth cd); [|apply good_ret].
      eapply good_weaken; [|apply good_fetch_objects].
      intros [k| |] h'; simpl; auto.
      intros [[[_ ->]|Hlt] _] Hk; [now split | lia]. }
    assert (GT : good C' (tree_step w obj pf))
      by (apply good_tree_step; now intros).
    assert (GR : good C' rest)
      by (apply good_bind; [exact GP | intros _; exact GT]).
    assert (Ev : run_events run st
                 = [RequestObject (AtCommit cd) h (Some data); SaveObject h obj]
                   ++ run_events rest st2).
    { unfold run_events at 1. rewrite E.
      apply (events_since_trans st st2 _ _ _ eq_refl).
      now apply (run_events_trace C'). }
    rewrite Hcond. split.
    + rewrite Ev. split.
      * intros [rep Hev]. apply elem_of_app in Hev as [Hev|Hev].
        -- apply elem_of_cons in Hev as [Hev|Hev]; [injection Hev; lia|].
           apply elem_of_cons in Hev as [Hev|Hev]; [discriminate|].
           now apply elem_of_nil in Hev.
        -- pose proof (gr_sites _ _ _ _ _ (good_run_events C' rest st2 GR)
                         _ _ _ Hev) as HC.
           now apply HC.
      * intros [Hpar Hd].
        assert (Hp2 : p ∉ fetched st2).
        { subst st2. cbn [fetched]. intros Hx.
          apply elem_of_union in Hx as [Hx|Hx]; [|contradiction].
          now apply elem_of_singleton in Hx. }
        destruct (fetch_objects_first_request w fuel p depth (cd + 1) pf st2 Hp2)
          as [evs Hevs].
        eexists. apply elem_of_app. right. subst rest.
        rewrite (run_events_bind C') by (try exact GP; intros _; exact GT).
        apply elem_of_app. left. unfold parent_step. rewrite Hpar, Hd, Hevs.
        apply elem_of_cons. now left.
    + intros [Hpar Hd]. rewrite E. subst rest. unfold bind.
      pose proof (fetch_objects_marks w fuel p depth (cd + 1) pf st2) as Hmark.
      assert (Ep : parent_step w (S fuel) obj depth cd pf st2
                   = _fetch_objects_recursive w (S fuel) p depth (cd + 1) pf st2)
        by (unfold parent_step; now rewrite Hpar, Hd).
      rewrite Ep.
      destruct (_fetch_objects_recursive w (S fuel) p depth (cd + 1) pf st2)
        as [[[]|e|] st3]; cbn [fst snd] in *; try exact Hmark.
      destruct (GT st3) as [evs G]. now apply (gr_mono _ _ _ _ _ G).
  - intros fuel tip pf st k h rep Hev.
    pose proof (gr_sites _ _ _ _ _
                  (good_run_events _ _ st
                     (good_fetch_objects w fuel tip (Some 1%Z) 0 pf))
                  _ _ _ Hev) as [Hk Hb].
    specialize (Hb 1%Z eq_refl). destruct Hk as [[-> ->]|Hk]; [now split | lia].
Qed.

Lemma parent_fetched_iff_within_depth_witness :
  let w := chain_world None in
  let run := _fetch_objects_recursive w 2 "C3" (Some 2%Z) 0 None in
  let parent_in_depth :=
    parent (commit_obj (Some "C2") "T3") = Some (Some "C2") /\ "C2" <> ""
    /\ (Some 2%Z = None \/ exists d, Some 2%Z = Some d /\ (0 < d - 1)%Z) in
  ((exists rep, RequestObject (AtCommit 1) "C2" rep ∈ run_events run initial_state)
   <-> parent_in_depth)
  /\ (parent_in_depth -> "C2" ∈ fetched (snd (run initial_state))).
Proof.
  intros w run.
  apply (proj1 (parent_fetched_iff_within_depth w) 0%nat "C3" (Some 2%Z) 0%Z
           None initial_state (list_byte_of_string "C3")
           (commit_obj (Some "C2") "T3") "C2").
  - apply not_elem_of_empty.
  - reflexivity.
  - discriminate.
  - reflexivity.
  - apply not_elem_of_empty.
  - discriminate.
Defined.

Example depth_one_stops_at_tip :
  requested_hashes
    (run_events (_fetch_objects_recursive (chain_world None) 5 "C3"
                   (Some 1%Z) 0 None) initial_state)
  = ["C3"; "T3"]
  /\ requested_hashes
       (run_events (_fetch_objects_recursive (chain_world None) 5 "C3"
                      None 0 None) initial_state)
     = ["C3"; "C2"; "C1"; "T1"; "T2"; "T3"].
Proof. split; vm_compute; reflexivity. Qed.

(** ** The server *)

Lemma process_block_request (blake3_hex16 : bytes -> string)
    (str_PacketType : PacketType -> string) (Obj : Type)
    (truthy_obj : Obj -> bool) (json_dumps_obj : Obj -> bytes)
    (json_dumps_refs : list (string * string) -> bytes)
    (payload_decode : bytes -> string + string)
    (CofRepository : string -> Repository Obj) (packet : NetworkPacket) :
  _is_repo Obj (CofRepository (repo_path packet)) = true ->
  packet_type packet = BLOCK_REQUEST ->
  _process_packet blake3_hex16 str_PacketType Obj truthy_obj json_dumps_obj
    json_dumps_refs payload_decode CofRepository packet
  = reply blake3_hex16 packet ERROR
      (str_encode ("Unknown packet type: " +:+ str_PacketType BLOCK_REQUEST)).
Proof. intros Hr Ht. unfold _process_packet. now rewrite Hr, Ht. Qed.

(** C2 fails on the code: [_process_packet] has no branch for
    [BLOCK_REQUEST].  The request for the block [hello], which the block
    store of the repository holds, is answered with an [ERROR] packet that
    reports an unknown packet type, not with a [BLOCK_RESPONSE]. *)
Theorem block_request_not_served :
  get_block obj_dict (served_root (repo_path block_request))
            (bytes_decode (payload block_request))
  = Some (list_byte_of_string "hello")
  /\ packet_type (serve block_request) = ERROR
  /\ payload (serve block_request)
     = str_encode "Unknown packet type: PacketType.BLOCK_REQUEST".
Proof. repeat split; reflexivity. Qed.

(** ** The packet codec *)

Lemma length_str_encode (s : string) :
  length (str_encode s) = String.length s.
Proof.
  unfold str_encode, list_byte_of_string. rewrite length_map.
  induction s as [|c s IH]; simpl; [reflexivity | now rewrite IH].
Qed.

Lemma bytes_decode_encode (s : string) : bytes_decode (str_encode s) = s.
Proof. apply string_of_list_byte_of_string. Qed.

Lemma to_N_byte_of_N (n : N) : Byte.to_N (byte_of_N n) = (n mod 256)%N.
Proof.
  unfold byte_of_N. destruct (Byte.of_N (n mod 256)) as [b|] eqn:E.
  - now apply Byte.to_of_N.
  - apply Byte.of_N_None_iff in E.
    pose proof (N.mod_lt n 256 ltac:(discriminate)). lia.
Qed.

Lemma of_u16be_u16be (n : N) :
  (n < 65536)%N ->
  of_u16be (byte_of_N (n / 256)) (byte_of_N n) = n.
Proof.
  intros H. unfold of_u16be. rewrite !to_N_byte_of_N.
  rewrite (N.mod_small (n / 256) 256)
    by (apply N.Div0.div_lt_upper_bound; lia).
  pose proof (N.div_mod n 256 ltac:(discriminate)). lia.
Qed.

Lemma of_u32be_u32be (n : N) :
  (n < 4294967296)%N ->
  of_u32be (byte_of_N (n / 16777216)) (byte_of_N (n / 65536))
    (byte_of_N (n / 256)) (byte_of_N n) = n.
Proof.
  intros H. unfold of_u32be. rewrite !to_N_byte_of_N.
  rewrite (N.mod_small (n / 16777216) 256)
    by (apply N.Div0.div_lt_upper_bound; lia).
  pose proof (N.div_mod n 256 ltac:(discriminate)) as H0.
  pose proof (N.div_mod (n / 256) 256 ltac:(discriminate)) as H1.
  pose proof (N.div_mod (n / 65536) 256 ltac:(discriminate)) as H2.
  replace (n / 256 / 256)%N with (n / 65536)%N in H1
    by (rewrite N.Div0.div_div; reflexivity).
  replace (n / 65536 / 256)%N with (n / 16777216)%N in H2
    by (rewrite N.Div0.div_div; reflexivity).
  lia.
Qed.

Lemma read_lp_string_lp (s : string) (rest : bytes) :
  (N.of_nat (length (str_encode s)) < 65536)%N ->
  read_lp_string (lp_string s ++ rest) = Some (s, rest).
Proof.
  intros H. unfold lp_string, u16be, read_lp_string. cbn [app].
  rewrite (of_u16be_u16be _ H), Nat2N.id.
  rewrite length_app.
  destruct (Nat.leb_spec (length (str_encode s))
              (length (str_encode s) + length rest)) as [_|Hlt]; [|lia].
  now rewrite take_app_length, drop_app_length, bytes_decode_encode.
Qed.

Lemma read_u32be_u32be (z : Z) (rest : bytes) :
  (0 <= z < 4294967296)%Z ->
  read_u32be (u32be (Z.to_N z) ++ rest) = Some (z, rest).
Proof.
  intros H. unfold u32be, read_u32be. cbn [app].
  rewrite of_u32be_u32be by lia. now rewrite Z2N.id by lia.
Qed.

Lemma PacketType_of_value_byte (t : PacketType) :
  PacketType_of_value (Byte.to_N (byte_of_N (PacketType_value t))) = Some t.
Proof. now destruct t. Qed.

Lemma fits_bounds (p : NetworkPacket) :
  fits p = true ->
  (N.of_nat (length (str_encode (session_id p))) < 65536)%N
  /\ (N.of_nat (length (str_encode (repo_path p))) < 65536)%N
  /\ (0 <= sequence p < 4294967296)%Z
  /\ (0 <= total_packets p < 4294967296)%Z.
Proof.
  unfold fits. rewrite !andb_true_iff.
  intros [[[[[H1 H2] H3] H4] H5] H6].
  apply N.ltb_lt in H1, H2. apply Z.leb_le in H3, H5. apply Z.ltb_lt in H4, H6.
  lia.
Qed.

Lemma read_header_body (sid repo : string) (seq total : Z) (data : bytes) :
  (N.of_nat (length (str_encode sid)) < 65536)%N ->
  (N.of_nat (length (str_encode repo)) < 65536)%N ->
  (0 <= seq < 4294967296)%Z -> (0 <= total < 4294967296)%Z ->
  read_header (lp_string sid ++ lp_string repo
               ++ u32be (Z.to_N seq) ++ u32be (Z.to_N total) ++ data)
  = Some (sid, repo, seq, total, data).
Proof.
  intros H1 H2 H3 H4. unfold read_header.
  rewrite read_lp_string_lp by assumption.
  rewrite read_lp_string_lp by assumption.
  rewrite read_u32be_u32be by assumption.
  now rewrite read_u32be_u32be by assumption.
Qed.

(** C8: for every packet built from a type, a session id, a repository
    path, a sequence number, a packet count and a payload, unpacking what
    [pack] returns gives the packet back, checksum included. *)
Theorem unpack_pack (blake3_hex16 : bytes -> string) (t : PacketType)
    (sid repo : string) (seq total : Z) (data wire : bytes) :
  (forall b, String.length (blake3_hex16 b) = 16%nat) ->
  pack blake3_hex16 (NetworkPacket_init blake3_hex16 t sid repo seq total data)
  = Some wire ->
  unpack blake3_hex16 wire
  = Unpacked (NetworkPacket_init blake3_hex16 t sid repo seq total data).
Proof.
  intros Hlen. unfold pack.
  destruct (fits _) eqn:Hfit; [|discriminate].
  apply fits_bounds in Hfit as (H1 & H2 & H3 & H4).
  cbn [NetworkPacket_init packet_type session_id repo_path sequence
       total_packets payload] in *.
  intros [= <-].
  set (body := packet_body t sid repo seq total data).
  assert (L16 : length (str_encode (blake3_hex16 body)) = 16%nat)
    by (rewrite length_str_encode; apply Hlen).
  unfold unpack.
  rewrite (take_app_length' _ _ 16) by (symmetry; exact L16).
  rewrite (drop_app_length' _ _ 16) by (symmetry; exact L16).
  destruct (Nat.ltb_spec (length (str_encode (blake3_hex16 body) ++ body))
              MIN_PACKET) as [Hshort|_].
  { exfalso. rewrite length_app, L16 in Hshort. subst body.
    unfold packet_body, lp_string, u16be, u32be, MIN_PACKET in Hshort.
    cbn [length] in Hshort. rewrite !length_app in Hshort.
    cbn [length] in Hshort. lia. }
  unfold bytes_eqb. rewrite bool_decide_eq_true_2 by reflexivity. cbn [negb].
  rewrite bytes_decode_encode.
  change body with (byte_of_N (PacketType_value t)
                    :: lp_string sid ++ lp_string repo
                    ++ u32be (Z.to_N seq) ++ u32be (Z.to_N total) ++ data)
    at 1.
  cbv iota beta. rewrite read_header_body by assumption.
  now rewrite PacketType_of_value_byte.
Qed.

Lemma unpack_pack_witness :
  let p := NetworkPacket_init toy_checksum DATA "session123" "my/repo/path"
             5 10 (str_encode "some test data here") in
  exists wire, pack toy_checksum p = Some wire
               /\ unpack toy_checksum wire = Unpacked p.
Proof.
  intros p. eexists. split; [reflexivity|].
  apply (unpack_pack toy_checksum DATA "session123" "my/repo/path" 5 10
           (str_encode "some test data here")); reflexivity.
Defined.

(** C9, as stated, fails: the seventeen bytes of [truncated_packet] carry a
    valid checksum and the unknown type byte [0xff], and are rejected as
    too small. *)
Lemma unknown_type_too_small :
  str_encode (toy_checksum (drop 16 truncated_packet))
  = take 16 truncated_packet
  /\ truncated_packet !! 16%nat = Some Byte.xff
  /\ PacketType_of_value (Byte.to_N Byte.xff) = None
  /\ unpack toy_checksum truncated_packet = Rejected PacketTooSmall.
Proof. repeat split; reflexivity. Qed.

(** C9, amended: an input of at least the minimum length, with a valid
    checksum and a header that parses, whose type byte names no member of
    the enumeration, unpacks to a packet of type [ERROR] with the fields the
    header holds. *)
Theorem unknown_type_decodes_as_error (blake3_hex16 : bytes -> string)
    (wire : bytes) (tb : byte) (hdr : bytes) (sid repo : string)
    (seq total : Z) (data : bytes) :
  (MIN_PACKET <= length wire)%nat ->
  str_encode (blake3_hex16 (drop 16 wire)) = take 16 wire ->
  drop 16 wire = tb :: hdr ->
  PacketType_of_value (Byte.to_N tb) = None ->
  read_header hdr = Some (sid, repo, seq, total, data) ->
  unpack blake3_hex16 wire
  = Unpacked (MkPacket ERROR sid repo seq total data
                (bytes_decode (take 16 wire))).
Proof.
  intros Hlen Hsum Hdrop Htype Hhdr. unfold unpack.
  destruct (Nat.ltb_spec (length wire) MIN_PACKET) as [Hshort|_]; [lia|].
  unfold bytes_eqb. rewrite bool_decide_eq_true_2 by exact Hsum. cbn [negb].
  now rewrite Hdrop, Hhdr, Htype.
Qed.

Lemma unknown_type_decodes_as_error_witness :
  unpack toy_checksum retyped_handshake
  = Unpacked (MkPacket ERROR "s1" "r" 0 1 [] "0000000000000000").
Proof.
  apply (unknown_type_decodes_as_error toy_checksum retyped_handshake Byte.xff
           (lp_string "s1" ++ lp_string "r" ++ u32be 0 ++ u32be 1)
           "s1" "r" 0%Z 1%Z []).
  - vm_compute. lia.
  - reflexivity.
  - reflexivity.
  - reflexivity.
  - reflexivity.
Defined.

(** ** Collecting the objects to push *)

#[local] Set Warnings "-clear-no-such-hyp".

Section CollectFacts.

Variable repository : local_repository.

Lemma collected_empty (fetched : gset string) :
  collected repository fetched (∅, fetched).
Proof.
  unfold collected; simpl. rewrite dom_empty_L. repeat split.
  - set_solver.
  - set_solver.
  - intros h b H. now rewrite lookup_empty in H.
Qed.

Lemma collected_singleton (fetched : gset string) (h : string) (o : obj_dict) :
  h ∉ fetched -> load_object repository h = Some o ->
  collected repository fetched
    ({[h := json_dumps repository o]}, {[h]} ∪ fetched).
Proof.
  intros Hin Hl. unfold collected; simpl. rewrite dom_singleton_L.
  repeat split.
  - set_solver.
  - set_solver.
  - intros h' b H. apply lookup_singleton_Some in H as [<- <-]. eauto.
Qed.

(** One more object, stored under a hash not marked so far. *)
Lemma collected_insert (fetched : gset string) (objects : gmap string bytes)
    (f : gset string) (h : string) (o : obj_dict) :
  collected repository fetched (objects, f) ->
  h ∉ f -> load_object repository h = Some o ->
  collected repository fetched
    (<[h := json_dumps repository o]> objects, {[h]} ∪ f).
Proof.
  unfold collected; simpl. intros (Hf & Hd & Hv) Hin Hl.
  rewrite dom_insert_L. subst f. repeat split.
  - set_solver.
  - set_solver.
  - intros h' b H. apply lookup_insert_Some in H as [[<- <-]|[_ H]]; eauto.
Qed.

(** A collection that goes on from where another one stopped. *)
Lemma collected_union (fetched : gset string) (o1 o2 : gmap string bytes)
    (f1 f2 : gset string) :
  collected repository fetched (o1, f1) ->
  collected repository f1 (o2, f2) ->
  collected repository fetched (o2 ∪ o1, f2).
Proof.
  unfold collected; simpl. intros (Hf1 & Hd1 & Hv1) (Hf2 & Hd2 & Hv2).
  rewrite dom_union_L. subst f1 f2. repeat split.
  - set_solver.
  - set_solver.
  - intros h b H. apply lookup_union_Some_raw in H as [H|[_ H]]; eauto.
Qed.

Lemma collected_entries (fetched : gset string) (eds : list entry_data)
    (acc : gmap string bytes * gset string) :
  collected repository fetched acc ->
  collected repository fetched (foldl (collect_entry repository) acc eds).
Proof.
  revert acc. induction eds as [|ed eds IH]; intros [objects f] H; simpl.
  - exact H.
  - apply IH. case_bool_decide as Hin; [exact H|].
    destruct (load_object repository (hash ed)) as [o|] eqn:Hl; [|exact H].
    now apply collected_insert.
Qed.

Lemma collected_tree (tree_hash : string) (fetched : gset string) :
  collected repository fetched (_get_tree_objects repository tree_hash fetched).
Proof.
  unfold _get_tree_objects. case_bool_decide as Hin; [apply collected_empty|].
  destruct (load_object repository tree_hash) as [o|] eqn:Hl;
    [|apply collected_empty].
  destruct (entries o) as [es|].
  - apply collected_entries. now apply collected_singleton.
  - now apply collected_singleton.
Qed.

Lemma collected_commits (fuel : nat) (commit_hash : string)
    (fetched : gset string) (res : gmap string bytes * gset string) :
  _get_objects_to_push repository fuel commit_hash fetched = Some res ->
  collected repository fetched res.
Proof.
  revert commit_hash fetched res.
  induction fuel as [|fuel IH]; intros h fetched res; simpl; [discriminate|].
  case_bool_decide as Hin; [intros [= <-]; apply collected_empty|].
  destruct (load_object repository h) as [c|] eqn:Hl;
    [|intros [= <-]; apply collected_empty].
  pose proof (collected_singleton fetched h c Hin Hl) as H0.
  assert (HP : forall r,
             match truthy_parent c with
             | Some p => _get_objects_to_push repository fuel p ({[h]} ∪ fetched)
             | None => Some (∅, {[h]} ∪ fetched)
             end = Some r ->
             collected repository ({[h]} ∪ fetched) r).
  { intros r. destruct (truthy_parent c) as [p|]; [apply IH|].
    intros [= <-]. apply collected_empty. }
  destruct (match truthy_parent c with Some _ => _ | None => _ end)
    as [[po pf]|]; [|discriminate].
  specialize (HP _ eq_refl).
  pose proof (collected_union _ _ _ _ _ H0 HP) as H1.
  destruct (truthy_opt_str (tree_root c)) as [t|]; [|now intros [= <-]].
  pose proof (collected_tree t pf) as HT.
  destruct (_get_tree_objects repository t pf) as [tobj tf].
  intros [= <-]. exact (collected_union _ _ _ _ _ H1 HT).
Qed.

End CollectFacts.

(** X1: the hashes [_get_objects_to_push] adds to the visited set are
    exactly the keys of the mapping it returns, and none of them was in
    the visited set before. *)
Theorem collect_marks_what_it_returns (repository : local_repository)
    (fuel : nat) (commit_hash : string) (fetched fetched' : gset string)
    (objects : gmap string bytes) :
  _get_objects_to_push repository fuel commit_hash fetched
  = Some (objects, fetched') ->
  fetched' = fetched ∪ dom objects /\ dom objects ## fetched.
Proof.
  intros H. destruct (collected_commits _ _ _ _ _ H) as (H1 & H2 & _).
  now split.
Qed.

Lemma collect_marks_what_it_returns_witness :
  exists objects fetched',
    _get_objects_to_push example_repository 3 "C2" {["T1"]}
    = Some (objects, fetched')
    /\ fetched' = {["T1"]} ∪ dom objects /\ dom objects ## {["T1"]}.
Proof.
  eexists. eexists. split; [vm_compute; reflexivity|].
  eapply (collect_marks_what_it_returns example_repository 3 "C2").
  vm_compute. reflexivity.
Defined.

(** X2: every value of the mapping [_get_objects_to_push] returns is the
    JSON text of the object the local store holds under its key. *)
Theorem collect_values_from_store (repository : local_repository)
    (fuel : nat) (commit_hash : string) (fetched fetched' : gset string)
    (objects : gmap string bytes) (h : string) (b : bytes) :
  _get_objects_to_push repository fuel commit_hash fetched
  = Some (objects, fetched') ->
  objects !! h = Some b ->
  exists o, load_object repository h = Some o /\ b = json_dumps repository o.
Proof.
  intros H. destruct (collected_commits _ _ _ _ _ H) as (_ & _ & H3).
  apply H3.
Qed.

Lemma collect_values_from_store_witness :
  exists o, load_object example_repository "C1" = Some o
            /\ list_byte_of_string "commit T1" = json_dumps example_repository o.
Proof.
  eapply (collect_values_from_store example_repository 3 "C2" ∅ _ _ "C1");
    vm_compute; reflexivity.
Defined.

(** X3: a second collection of the same commit over the visited set the
    first one left returns the empty mapping and leaves the set as it is. *)
Theorem collect_twice_empty (repository : local_repository) (fuel fuel' : nat)
    (commit_hash : string) (fetched fetched' : gset string)
    (objects : gmap string bytes) :
  _get_objects_to_push repository fuel commit_hash fetched
  = Some (objects, fetched') ->
  _get_objects_to_push repository (S fuel') commit_hash fetched'
  = Some (∅, fetched').
Proof.
  intros H. destruct fuel as [|fuel]; [discriminate|]. simpl in H. simpl.
  case_bool_decide as Hf.
  { injection H as _ <-. now rewrite bool_decide_eq_true_2. }
  destruct (load_object repository commit_hash) as [c|] eqn:E.
  2:{ injection H as _ <-. now rewrite bool_decide_eq_false_2. }
  assert (Hin : commit_hash ∈ fetched'); [|now rewrite bool_decide_eq_true_2].
  destruct (match truthy_parent c with Some _ => _ | None => _ end)
    as [[po pf]|] eqn:EP; [|discriminate].
  assert (HP : collected repository ({[commit_hash]} ∪ fetched) (po, pf)).
  { destruct (truthy_parent c) as [p|].
    - now apply (collected_commits repository fuel p).
    - injection EP as <- <-. apply collected_empty. }
  destruct HP as (HP & _); simpl in HP.
  destruct (truthy_opt_str (tree_root c)) as [t|].
  - pose proof (collected_tree repository t pf) as (HT & _).
    destruct (_get_tree_objects repository t pf) as [tobj tf].
    injection H as _ <-. simpl in HT. set_solver.
  - injection H as _ <-. set_solver.
Qed.

Lemma collect_twice_empty_witness :
  exists objects fetched',
    _get_objects_to_push example_repository 3 "C2" ∅ = Some (objects, fetched')
    /\ objects <> ∅
    /\ _get_objects_to_push example_repository 1 "C2" fetched'
       = Some (∅, fetched').
Proof.
  eexists. eexists. split; [vm_compute; reflexivity|].
  split; [vm_compute; discriminate|].
  eapply (collect_twice_empty example_repository 3 0 "C2" ∅).
  vm_compute. reflexivity.
Defined.

Lemma collect_entries_dom (repository : local_repository)
    (eds : list entry_data) (acc : gmap string bytes * gset string)
    (k : string) :
  k ∈ dom (foldl (collect_entry repository) acc eds).1 ->
  k ∈ dom acc.1 \/ exists ed, ed ∈ eds /\ hash ed = k.
Proof.
  revert acc. induction eds as [|ed eds IH]; intros [objects f]; simpl.
  - now left.
  - intros H. apply IH in H as [H|(ed' & Hin & Hk)].
    + case_bool_decide; [now left|].
      destruct (load_object repository (hash ed)); [|now left].
      simpl in H. rewrite dom_insert_L in H.
      apply elem_of_union in H as [H|H]; [|now left].
      apply elem_of_singleton in H. right. exists ed. split; [|easy].
      apply elem_of_cons. now left.
    + right. exists ed'. split; [|easy]. apply elem_of_cons. now right.
Qed.

(** X4: [_get_tree_objects] stays on the first level of its tree: a key of
    the mapping it returns is the tree itself or the hash of one of its
    entries; nothing below a directory entry is collected. *)
Theorem tree_collect_first_level_only (repository : local_repository)
    (tree_hash : string) (fetched : gset string) (k : string) :
  k ∈ dom (_get_tree_objects repository tree_hash fetched).1 ->
  k = tree_hash
  \/ exists tree_data es entry,
       load_object repository tree_hash = Some tree_data
       /\ entries tree_data = Some es
       /\ entry ∈ es /\ hash entry.2 = k.
Proof.
  unfold _get_tree_objects. case_bool_decide; simpl.
  { rewrite dom_empty_L. intros H'. now apply elem_of_empty in H'. }
  destruct (load_object repository tree_hash) as [tree_data|] eqn:Hl; simpl.
  2:{ rewrite dom_empty_L. intros H'. now apply elem_of_empty in H'. }
  destruct (entries tree_data) as [es|] eqn:He; simpl.
  - intros Hk. apply collect_entries_dom in Hk as [Hk|(ed & Hin & Hk)].
    + simpl in Hk. rewrite dom_singleton_L in Hk.
      apply elem_of_singleton in Hk. now left.
    + right. apply list_elem_of_fmap in Hin as (entry & -> & Hin).
      now exists tree_data, es, entry.
  - rewrite dom_singleton_L. intros Hk. apply elem_of_singleton in Hk.
    now left.
Qed.

Lemma tree_collect_first_level_only_witness :
  "T2lib" ∈ dom (_get_tree_objects example_repository "T2" ∅).1
  /\ ("blobB" ∉ dom (_get_tree_objects example_repository "T2" ∅).1)
  /\ ("T2lib" = "T2"
      \/ exists tree_data es entry,
           load_object example_repository "T2" = Some tree_data
           /\ entries tree_data = Some es
           /\ entry ∈ es /\ hash entry.2 = "T2lib").
Proof.
  assert (H : "T2lib" ∈ dom (_get_tree_objects example_repository "T2" ∅).1).
  { apply elem_of_dom. vm_compute. eauto. }
  split; [exact H|]. split.
  - intros Hb. apply elem_of_dom in Hb as [x Hb]. vm_compute in Hb.
    discriminate.
  - exact (tree_collect_first_level_only example_repository "T2" ∅ "T2lib" H).
Defined.

(** The tip of a collection, when the store holds it, is in the mapping. *)
Lemma collect_tip (repository : local_repository) (fuel : nat)
    (commit_hash : string) (fetched fetched' : gset string)
    (objects : gmap string bytes) :
  commit_hash ∉ fetched ->
  _get_objects_to_push repository fuel commit_hash fetched
  = Some (objects, fetched') ->
  objects !! commit_hash
  = json_dumps repository <$> load_object repository commit_hash.
Proof.
  intros Hin H. destruct fuel as [|fuel]; [discriminate|]. simpl in H.
  rewrite bool_decide_eq_false_2 in H by assumption.
  destruct (load_object repository commit_hash) as [c|] eqn:E.
  2:{ now injection H as <- _. }
  destruct (match truthy_parent c with Some _ => _ | None => _ end)
    as [[po pf]|] eqn:EP; [|discriminate].
  assert (HP : collected repository ({[commit_hash]} ∪ fetched) (po, pf)).
  { destruct (truthy_parent c) as [p|].
    - now apply (collected_commits repository fuel p).
    - injection EP as <- <-. apply collected_empty. }
  destruct HP as (HP1 & HP2 & _); simpl in HP1, HP2.
  assert (Hpo : po !! commit_hash = None).
  { apply not_elem_of_dom. set_solver. }
  assert (Hbase : (po ∪ {[commit_hash := json_dumps repository c]})
                    !! commit_hash = Some (json_dumps repository c)).
  { apply lookup_union_Some_raw. right. split; [exact Hpo|].
    apply lookup_singleton_eq. }
  destruct (truthy_opt_str (tree_root c)) as [t|].
  - pose proof (collected_tree repository t pf) as (_ & HT & _).
    destruct (_get_tree_objects repository t pf) as [tobj tf].
    injection H as <- _. simpl in HT. simpl.
    apply lookup_union_Some_raw. right. split; [|exact Hbase].
    apply not_elem_of_dom. set_solver.
  - injection H as <- _. exact Hbase.
Qed.

(** ** Push *)

(** X5: [push_to_remote] contacts the remote exactly when the remote is
    registered, the branch has a local ref, and the commit the ref names is
    in the local store; only then is there a handshake. *)
Theorem push_contacts_remote_iff (pw : push_world) (fuel : nat)
    (remote_name branch : string) (r : bool) (evs : list push_event) :
  push_to_remote pw fuel remote_name branch = Some (r, evs) ->
  (exists ok, PushHandshake ok ∈ evs)
  <-> (is_Some (push_get_remote pw remote_name)
       /\ exists c, branch_ref (push_repository pw) branch = Some c
                    /\ is_Some (load_object (push_repository pw) c)).
Proof.
  unfold push_to_remote.
  destruct (push_get_remote pw remote_name) as [u|].
  2:{ intros [= <- <-]. split.
      - intros [ok H]. apply list_elem_of_singleton in H. discriminate.
      - intros [[x Hx] _]. discriminate. }
  destruct (branch_ref (push_repository pw) branch) as [c|].
  2:{ intros [= <- <-]. split.
      - intros [ok H]. apply list_elem_of_singleton in H. discriminate.
      - intros (_ & c & Hc & _). discriminate. }
  destruct (_get_objects_to_push _ fuel c ∅) as [[objs f]|] eqn:E;
    [|discriminate].
  pose proof (collect_tip _ _ _ _ _ _ (not_elem_of_empty c) E) as Ht.
  case_bool_decide as He.
  - intros [= <- <-]. subst objs. rewrite lookup_empty in Ht. split.
    + intros [ok H]. apply list_elem_of_singleton in H. discriminate.
    + intros (_ & c' & [= <-] & [o Ho]). rewrite Ho in Ht. discriminate.
  - assert (Hl : is_Some (load_object (push_repository pw) c)).
    { destruct (load_object (push_repository pw) c) as [o|] eqn:Hl; [eauto|].
      exfalso. apply He. apply map_eq. intros k. rewrite lookup_empty.
      destruct (collected_commits _ _ _ _ _ E) as (H1 & H2 & H3).
      destruct (objs !! k) as [b|] eqn:Hk; [|reflexivity].
      destruct fuel as [|fuel]; [discriminate|]. simpl in E.
      rewrite bool_decide_eq_false_2, Hl in E by apply not_elem_of_empty.
      injection E as <- _. now rewrite lookup_empty in Hk. }
    intros Hres. split.
    + intros _. split; [eauto|]. exists c. now split.
    + intros _.
      destruct (negb (push_handshake pw));
        [|destruct (negb (push_objects pw objs))];
        injection Hres as <- <-; eexists; apply elem_of_cons; now left.
Qed.

Lemma push_contacts_remote_iff_witness :
  (exists r evs,
      push_to_remote (example_push_world true true) 3 "origin" "stale"
      = Some (r, evs)
      /\ r = true /\ evs = [PushEcho "Nothing to push."])
  /\ ((exists ok,
          PushHandshake ok
            ∈ [PushHandshake false;
               PushEcho "Push failed: Failed to connect to remote repository."])
      <-> (is_Some (push_get_remote (example_push_world false true) "origin")
           /\ exists c,
                branch_ref (push_repository (example_push_world false true))
                  "main" = Some c
                /\ is_Some (load_object
                              (push_repository (example_push_world false true))
                              c))).
Proof.
  split.
  - eexists. eexists. split; [vm_compute; reflexivity|]. now split.
  - apply (push_contacts_remote_iff (example_push_world false true) 3
             "origin" "main" false).
    vm_compute. reflexivity.
Defined.

(** X6: [push_to_remote] returns [True] exactly when the remote is
    registered, the branch has a local ref, and either the commit the ref
    names is missing from the local store (nothing to push) or the
    handshake succeeds and [push_objects] reports success. *)
Theorem push_succeeds_iff (pw : push_world) (fuel : nat)
    (remote_name branch : string) (r : bool) (evs : list push_event) :
  push_to_remote pw fuel remote_name branch = Some (r, evs) ->
  r = true
  <-> (is_Some (push_get_remote pw remote_name)
       /\ exists c, branch_ref (push_repository pw) branch = Some c
            /\ (load_object (push_repository pw) c = None
                \/ (push_handshake pw = true
                    /\ exists objects, PushObjects objects true ∈ evs))).
Proof.
  intros Hres.
  pose proof (push_contacts_remote_iff pw fuel remote_name branch r evs Hres)
    as Hc.
  revert Hres Hc. unfold push_to_remote.
  destruct (push_get_remote pw remote_name) as [u|].
  2:{ intros [= <- <-] _. split; [discriminate|].
      intros [[x Hx] _]. discriminate. }
  destruct (branch_ref (push_repository pw) branch) as [c|].
  2:{ intros [= <- <-] _. split; [discriminate|].
      intros (_ & c & Hc & _). discriminate. }
  destruct (_get_objects_to_push _ fuel c ∅) as [[objs f]|] eqn:E;
    [|discriminate].
  case_bool_decide as He.
  - intros [= <- <-] Hc. split; [|reflexivity]. intros _. split; [eauto|].
    exists c. split; [reflexivity|]. left.
    destruct (load_object (push_repository pw) c) eqn:Hl; [|reflexivity].
    exfalso. destruct Hc as [_ Hc].
    destruct Hc as [ok Hok]; [split; [eauto|]; exists c; split; eauto|].
    apply list_elem_of_singleton in Hok. discriminate.
  - intros Hres [Hc _].
    assert (Hl : load_object (push_repository pw) c <> None).
    { destruct (negb (push_handshake pw));
        [|destruct (negb (push_objects pw objs))];
        injection Hres as _ <-;
        (destruct Hc as (_ & c' & [= <-] & [o ->]);
         [eexists; apply elem_of_cons; now left | discriminate]). }
    destruct (push_handshake pw); cbn [negb] in Hres.
    + destruct (push_objects pw objs); cbn [negb] in Hres;
        injection Hres as <- <-.
      * split; [|reflexivity]. intros _. split; [eauto|]. exists c.
        split; [reflexivity|]. right. split; [reflexivity|]. exists objs.
        apply elem_of_cons. right. apply elem_of_cons. now left.
      * split; [discriminate|]. intros (_ & c' & [= <-] & [Hn|[_ [o Ho]]]);
          [contradiction|].
        repeat (apply elem_of_cons in Ho as [Ho|Ho]; [discriminate|]).
        now apply elem_of_nil in Ho.
    + injection Hres as <- <-. split; [discriminate|].
      intros (_ & c' & [= <-] & [Hn|[Hh _]]); [contradiction|discriminate].
Qed.

Lemma push_succeeds_iff_witness :
  exists evs,
    push_to_remote (example_push_world true true) 3 "origin" "main"
    = Some (true, evs)
    /\ (true = true
        <-> (is_Some (push_get_remote (example_push_world true true) "origin")
             /\ exists c,
                  branch_ref (push_repository (example_push_world true true))
                    "main" = Some c
                  /\ (load_object
                        (push_repository (example_push_world true true)) c
                      = None
                      \/ (push_handshake (example_push_world true true) = true
                          /\ exists objects,
                               PushObjects objects true ∈ evs)))).
Proof.
  eexists. split; [vm_compute; reflexivity|].
  apply (push_succeeds_iff (example_push_world true true) 3 "origin" "main").
  vm_compute. reflexivity.
Defined.

(** ** The remotes registry *)

Section ManagerFacts.

Context (RemoteRepository : Type)
        (from_url : string -> string -> RemoteRepository)
        (new : string -> string -> string -> Z -> string -> RemoteRepository)
        (url host protocol : RemoteRepository -> string)
        (port : RemoteRepository -> Z).

Local Abbreviation manager := (RemoteManager.manager RemoteRepository).
Local Abbreviation add_remote :=
  (RemoteManager.add_remote RemoteRepository from_url url host protocol port).
Local Abbreviation remove_remote :=
  (RemoteManager.remove_remote RemoteRepository url host protocol port).
Local Abbreviation get_remote := (RemoteManager.get_remote RemoteRepository).
Local Abbreviation init := (RemoteManager.init RemoteRepository new).
Local Abbreviation remotes := (RemoteManager.remotes RemoteRepository).
Local Abbreviation remotes_file := (RemoteManager.remotes_file RemoteRepository).

(** X7: [add_remote] refuses a name that is taken, with the message
    "Remote '<name>' already exists."; for a free name the new manager
    answers [get_remote] on that name with the remote [from_url] built,
    and on every other name as before. *)
Theorem add_remote_registers (name u : string) (m : manager) :
  match add_remote name u m with
  | inl msg =>
      is_Some (get_remote name m)
      /\ msg = "Remote '" +:+ name +:+ "' already exists."
  | inr (m', _) =>
      get_remote name m = None
      /\ get_remote name m' = Some (from_url name u)
      /\ forall other, other <> name ->
           get_remote other m' = get_remote other m
  end.
Proof.
  unfold RemoteManager.add_remote, RemoteManager.get_remote.
  destruct (remotes m !! name) as [r|] eqn:E; [now split; eauto|].
  cbn [RemoteManager._save_remotes RemoteManager.remotes].
  split; [reflexivity|]. split; [apply lookup_insert_eq|].
  intros other Hne. now apply lookup_insert_ne.
Qed.

(** X8: removing a remote that was just added under a free name gives the
    [remotes] dictionary back, and the removal of a name that is not
    registered is refused with "Remote '<name>' does not exist.". *)
Theorem remove_after_add (name u : string) (m : manager) :
  get_remote name m = None ->
  remove_remote name m = inl ("Remote '" +:+ name +:+ "' does not exist.")
  /\ exists m1 line1 m2 line2,
       add_remote name u m = inr (m1, line1)
       /\ remove_remote name m1 = inr (m2, line2)
       /\ remotes m2 = remotes m
       /\ get_remote name m2 = None.
Proof.
  unfold RemoteManager.add_remote, RemoteManager.remove_remote,
    RemoteManager.get_remote.
  intros E. rewrite E. split; [reflexivity|].
  do 4 eexists. split; [reflexivity|].
  cbn [RemoteManager._save_remotes RemoteManager.remotes].
  rewrite lookup_insert_eq. split; [reflexivity|].
  cbn [RemoteManager._save_remotes RemoteManager.remotes].
  rewrite delete_insert_id by exact E. now split.
Qed.

(** X9: the registry file follows every successful [add_remote] and
    [remove_remote]: a manager created from the file afterwards knows the
    same names, each with the remote the constructor builds from the name
    and the saved url, host, port and protocol. *)
Theorem registry_file_follows (name u : string) (m m' : manager)
    (line : string) (k : string) :
  add_remote name u m = inr (m', line)
  \/ remove_remote name m = inr (m', line) ->
  get_remote k (init (remotes_file m'))
  = (fun r => new k (url r) (host r) (port r) (protocol r))
      <$> get_remote k m'.
Proof.
  assert (H : forall m0 : manager,
             get_remote k
               (init (remotes_file
                        (RemoteManager._save_remotes RemoteRepository
                           url host protocol port m0)))
             = (fun r => new k (url r) (host r) (port r) (protocol r))
                 <$> remotes m0 !! k).
  { intros m0. unfold RemoteManager.get_remote, RemoteManager.init.
    cbn [RemoteManager._save_remotes RemoteManager.remotes
         RemoteManager.remotes_file RemoteManager._load_remotes].
    rewrite map_lookup_imap, lookup_fmap.
    now destruct (remotes m0 !! k). }
  unfold RemoteManager.add_remote, RemoteManager.remove_remote.
  destruct (remotes m !! name) as [r|]; intros [E|E]; try discriminate;
    injection E as <- _; apply H.
Qed.

End ManagerFacts.

Lemma remove_after_add_witness :
  let m := RemoteManager.init RemoteManager.example_remote
             RemoteManager.example_new None in
  exists m1 line1 m2 line2,
    RemoteManager.example_add "origin" "cof://127.0.0.1:7357/repo" m
    = inr (m1, line1)
    /\ RemoteManager.example_remove "origin" m1 = inr (m2, line2)
    /\ RemoteManager.remotes _ m2 = RemoteManager.remotes _ m
    /\ RemoteManager.get_remote _ "origin" m2 = None.
Proof.
  intros m.
  exact (proj2 (remove_after_add RemoteManager.example_remote
                  RemoteManager.example_from_url RemoteManager.ex_url
                  RemoteManager.ex_host RemoteManager.ex_protocol
                  RemoteManager.ex_port "origin" "cof://127.0.0.1:7357/repo"
                  m eq_refl)).
Defined.

Lemma registry_file_follows_witness :
  let m := RemoteManager.init RemoteManager.example_remote
             RemoteManager.example_new None in
  exists m' line,
    RemoteManager.example_add "origin" "cof://127.0.0.1:7357/repo" m
    = inr (m', line)
    /\ RemoteManager.get_remote _ "origin"
         (RemoteManager.init _ RemoteManager.example_new
            (RemoteManager.remotes_file _ m'))
       = Some (RemoteManager.ExampleRemote "origin"
                 "cof://127.0.0.1:7357/repo" "127.0.0.1" 7357 "udp" "").
Proof.
  intros m. eexists. eexists. split; [reflexivity|].
  rewrite (registry_file_follows RemoteManager.example_remote
             RemoteManager.example_from_url RemoteManager.example_new
             RemoteManager.ex_url RemoteManager.ex_host
             RemoteManager.ex_protocol RemoteManager.ex_port
             "origin" "cof://127.0.0.1:7357/repo" m _ _ "origin"
             (or_introl eq_refl)).
  reflexivity.
Defined.

(** ** More on the server *)

Section ServerFacts.

Context (blake3_hex16 : bytes -> string)
        (str_PacketType : PacketType -> string) (Obj : Type)
        (truthy_obj : Obj -> bool) (json_dumps_obj : Obj -> bytes)
        (json_dumps_refs : list (string * string) -> bytes)
        (payload_decode : bytes -> string + string)
        (CofRepository : string -> Repository Obj).

Local Abbreviation process :=
  (_process_packet blake3_hex16 str_PacketType Obj truthy_obj json_dumps_obj
     json_dumps_refs payload_decode CofRepository).

Lemma process_is_reply (packet : NetworkPacket) :
  exists t data, process packet = reply blake3_hex16 packet t data
    /\ (t = ERROR
        \/ (_is_repo Obj (CofRepository (repo_path packet)) = true
            /\ match packet_type packet with
               | HANDSHAKE => t = HANDSHAKE_ACK
               | OBJECT_REQUEST => t = OBJECT_RESPONSE
               | REF_REQUEST => t = REF_RESPONSE
               | PUSH_REQUEST => t = PUSH_RESPONSE
               | _ => False
               end)).
Proof.
  unfold _process_packet.
  destruct (_is_repo Obj (CofRepository (repo_path packet))) eqn:Hr;
    cbn [negb]; [|eauto].
  destruct (packet_type packet) eqn:Ht; eauto 6.
  destruct (payload_decode (payload packet)) as [h|e]; [|eauto].
  destruct (_load_object Obj (CofRepository (repo_path packet)) h) as [o|];
    [|eauto].
  destruct (truthy_obj o); eauto 6.
Qed.

(** X10: whatever the request, the packet [_process_packet] returns
    carries the session id and the repository path of the request and is
    a message of one packet: sequence 0 of 1. *)
Theorem reply_echoes_request (packet : NetworkPacket) :
  session_id (process packet) = session_id packet
  /\ repo_path (process packet) = repo_path packet
  /\ sequence (process packet) = 0%Z
  /\ total_packets (process packet) = 1%Z.
Proof.
  destruct (process_is_reply packet) as (t & data & -> & _).
  repeat split.
Qed.

(** X11: the type of the packet [_process_packet] returns is [ERROR], or,
    for a valid repository, the response type that pairs with the request:
    [HANDSHAKE_ACK], [OBJECT_RESPONSE], [REF_RESPONSE] or [PUSH_RESPONSE].
    It is never a request type, [DATA] or [BLOCK_RESPONSE], and a packet
    for a path that holds no repository gets [ERROR] whatever its type. *)
Theorem reply_type_pairs_with_request (packet : NetworkPacket) :
  packet_type (process packet) = ERROR
  \/ (_is_repo Obj (CofRepository (repo_path packet)) = true
      /\ match packet_type packet with
         | HANDSHAKE => packet_type (process packet) = HANDSHAKE_ACK
         | OBJECT_REQUEST => packet_type (process packet) = OBJECT_RESPONSE
         | REF_REQUEST => packet_type (process packet) = REF_RESPONSE
         | PUSH_REQUEST => packet_type (process packet) = PUSH_RESPONSE
         | _ => False
         end).
Proof.
  destruct (process_is_reply packet) as (t & data & -> & [->|[Hr Ht]]);
    [now left | right].
  split; [exact Hr|]. now destruct (packet_type packet); subst.
Qed.

End ServerFacts.

Lemma of_u16be_bound (b1 b0 : byte) : (of_u16be b1 b0 < 65536)%N.
Proof.
  unfold of_u16be. pose proof (Byte.to_N_bounded b1).
  pose proof (Byte.to_N_bounded b0). lia.
Qed.

Lemma str_encode_decode (b : bytes) : str_encode (bytes_decode b) = b.
Proof. apply list_byte_of_string_of_list_byte. Qed.

(** A string read off the wire fits a length prefix again. *)
Lemma read_lp_string_fits (bs rest : bytes) (s : string) :
  read_lp_string bs = Some (s, rest) ->
  (N.of_nat (length (str_encode s)) < 65536)%N.
Proof.
  unfold read_lp_string. destruct bs as [|b1 [|b0 tl]]; try discriminate.
  destruct (Nat.leb_spec (N.to_nat (of_u16be b1 b0)) (length tl)) as [Hle|];
    [|discriminate].
  intros [= <- _]. rewrite str_encode_decode, length_take_le by exact Hle.
  rewrite N2Nat.id. apply of_u16be_bound.
Qed.

Lemma read_u32be_bounds (bs rest : bytes) (z : Z) :
  read_u32be bs = Some (z, rest) -> (0 <= z < 4294967296)%Z.
Proof.
  unfold read_u32be. destruct bs as [|b3 [|b2 [|b1 [|b0 tl]]]]; try discriminate.
  intros [= <- _]. unfold of_u32be.
  pose proof (Byte.to_N_bounded b3). pose proof (Byte.to_N_bounded b2).
  pose proof (Byte.to_N_bounded b1). pose proof (Byte.to_N_bounded b0). lia.
Qed.

(** What [unpack] accepts, [pack] accepts. *)
Lemma unpacked_fits (blake3_hex16 : bytes -> string) (data : bytes)
    (p : NetworkPacket) :
  unpack blake3_hex16 data = Unpacked p -> fits p = true.
Proof.
  unfold unpack. destruct (length data <? MIN_PACKET)%nat; [discriminate|].
  destruct (negb _); [discriminate|].
  destruct (drop 16 data) as [|tb hdr]; [discriminate|].
  unfold read_header.
  destruct (read_lp_string hdr) as [[sid bs1]|] eqn:E1; [|discriminate].
  destruct (read_lp_string bs1) as [[repo bs2]|] eqn:E2; [|discriminate].
  destruct (read_u32be bs2) as [[seq bs3]|] eqn:E3; [|discriminate].
  destruct (read_u32be bs3) as [[total data']|] eqn:E4; [|discriminate].
  intros [= <-]. unfold fits.
  cbn [session_id repo_path sequence total_packets].
  apply read_lp_string_fits in E1, E2. apply read_u32be_bounds in E3, E4.
  rewrite !andb_true_iff. repeat split;
    try (apply N.ltb_lt; assumption);
    try (apply Z.leb_le; lia); apply Z.ltb_lt; lia.
Qed.

Lemma pack_init (blake3_hex16 : bytes -> string) (t : PacketType)
    (sid repo : string) (seq total : Z) (data : bytes) :
  fits (NetworkPacket_init blake3_hex16 t sid repo seq total data) = true ->
  exists wire,
    pack blake3_hex16 (NetworkPacket_init blake3_hex16 t sid repo seq total data)
    = Some wire.
Proof. intros H. unfold pack. rewrite H. eauto. Qed.

(** X12: with the codec above, the first datagram [_handle_packet] hands
    to [sendto] is the packed answer: the packet [_process_packet] returns
    when the input unpacks, an [ERROR] packet with empty session id and
    repository path holding the text of the exception when it does not; it
    unpacks to that packet.  When the socket takes it, it is the one
    datagram sent.  When [sendto] raises on a response, the handler tries
    once more, with an [ERROR] packet holding the text of that exception;
    when [sendto] raises on an [ERROR] packet, the exception leaves the
    handler and nothing is sent. *)
Theorem handle_packet_answer (blake3_hex16 : bytes -> string)
    (str_PacketType : PacketType -> string) (Obj : Type)
    (truthy_obj : Obj -> bool) (json_dumps_obj : Obj -> bytes)
    (json_dumps_refs : list (string * string) -> bytes)
    (payload_decode : bytes -> string + string)
    (CofRepository : string -> Repository Obj)
    (str_unpack_error : unpack_error -> string) (str_pack_error : string)
    (sendto : bytes -> option string) (data : bytes) :
  (forall b, String.length (blake3_hex16 b) = 16%nat) ->
  let ended :=
    _handle_packet blake3_hex16 str_PacketType Obj truthy_obj json_dumps_obj
      json_dumps_refs payload_decode CofRepository str_unpack_error
      str_pack_error sendto data in
  let answer :=
    match unpack blake3_hex16 data with
    | Unpacked packet =>
        _process_packet blake3_hex16 str_PacketType Obj truthy_obj
          json_dumps_obj json_dumps_refs payload_decode CofRepository packet
    | Rejected e => error_packet blake3_hex16 (str_unpack_error e)
    end in
  exists wire,
    pack blake3_hex16 answer = Some wire
    /\ unpack blake3_hex16 wire = Unpacked answer
    /\ match sendto wire with
       | None => ended = Sent wire
       | Some msg =>
           match unpack blake3_hex16 data with
           | Unpacked _ =>
               exists wire',
                 pack blake3_hex16 (error_packet blake3_hex16 msg) = Some wire'
                 /\ unpack blake3_hex16 wire'
                    = Unpacked (error_packet blake3_hex16 msg)
                 /\ ended = match sendto wire' with
                            | None => Sent wire'
                            | Some msg' => Failed msg'
                            end
           | Rejected _ => ended = Failed msg
           end
       end.
Proof.
  intros Hlen ended answer. subst ended answer.
  assert (Herr : forall msg, exists wire,
             pack blake3_hex16 (error_packet blake3_hex16 msg) = Some wire
             /\ unpack blake3_hex16 wire
                = Unpacked (error_packet blake3_hex16 msg)).
  { intros msg. unfold error_packet.
    destruct (pack_init blake3_hex16 ERROR "" "" 0 1 (str_encode msg) eq_refl)
      as [wire Hw].
    exists wire. split; [exact Hw | now apply unpack_pack]. }
  unfold _handle_packet.
  destruct (unpack blake3_hex16 data) as [packet|e] eqn:E.
  - destruct (process_is_reply blake3_hex16 str_PacketType Obj truthy_obj
                json_dumps_obj json_dumps_refs payload_decode CofRepository
                packet) as (t & body & -> & _).
    unfold reply.
    assert (Hfit : fits (NetworkPacket_init blake3_hex16 t (session_id packet)
                           (repo_path packet) 0 1 body) = true).
    { pose proof (unpacked_fits _ _ _ E) as Hf. unfold fits in *.
      cbn [NetworkPacket_init session_id repo_path sequence total_packets].
      rewrite !andb_true_iff in *. tauto. }
    destruct (pack_init _ _ _ _ _ _ _ Hfit) as [wire Hw]. rewrite Hw.
    exists wire. split; [reflexivity|]. split; [now apply unpack_pack|].
    destruct (sendto wire) as [msg|]; [|reflexivity].
    destruct (Herr msg) as (wire' & Hw' & Hu').
    exists wire'. split; [exact Hw'|]. split; [exact Hu'|].
    unfold send_error. now rewrite Hw'.
  - destruct (Herr (str_unpack_error e)) as (wire & Hw & Hu).
    exists wire. split; [exact Hw|]. split; [exact Hu|].
    unfold send_error. rewrite Hw. now destruct (sendto wire).
Qed.

Lemma handle_packet_answer_witness :
  exists wire',
    _handle_packet toy_checksum PacketType_str obj_dict (fun _ => true)
      (fun _ => []) (fun _ => []) (fun b => inl (bytes_decode b)) served_root
      (fun _ => "Packet too small") "" (sendto_upto 45) handshake_datagram
    = Sent wire'
    /\ unpack toy_checksum wire'
       = Unpacked (error_packet toy_checksum "Message too long").
Proof.
  destruct (handle_packet_answer toy_checksum PacketType_str obj_dict
              (fun _ => true) (fun _ => []) (fun _ => [])
              (fun b => inl (bytes_decode b)) served_root
              (fun _ => "Packet too small") "" (sendto_upto 45)
              handshake_datagram (fun _ => eq_refl)) as (wire & Hw & _ & H).
  vm_compute in Hw. injection Hw as <-. vm_compute in H.
  destruct H as (wire' & Hw' & _ & H). injection Hw' as <-.
  eexists. split; [exact H | vm_compute; reflexivity].
Defined.

(** ** Termination of the fetch *)

Lemma bind_not_out_of_fuel {A B} (m : M A) (k : A -> M B) (st : state) :
  fst (m st) <> OutOfFuel ->
  (forall a, never_out_of_fuel (k a)) ->
  fst (bind m k st) <> OutOfFuel.
Proof.
  intros Hm Hk. unfold bind. destruct (m st) as [[a|e|] st'];
    [apply Hk | discriminate | contradiction].
Qed.

Lemma never_bind {A B} (m : M A) (k : A -> M B) :
  never_out_of_fuel m -> (forall a, never_out_of_fuel (k a)) ->
  never_out_of_fuel (bind m k).
Proof. intros Hm Hk st. now apply bind_not_out_of_fuel. Qed.

Lemma never_for_each {A} (xs : list A) (body : A -> M unit) :
  (forall x, never_out_of_fuel (body x)) ->
  never_out_of_fuel (for_each xs body).
Proof.
  intros Hb. induction xs as [|x xs IH]; [discriminate|].
  apply never_bind; [apply Hb | intros _; exact IH].
Qed.

Lemma never_request_object (w : world) (s : site) (h : string) :
  never_out_of_fuel (client_request_object w s h).
Proof. intros st. discriminate. Qed.

Lemma never_request_block (w : world) (h : string) :
  never_out_of_fuel (client_request_block w h).
Proof. intros st. discriminate. Qed.

Lemma never_loads (w : world) (data : bytes) : never_out_of_fuel (loads w data).
Proof. unfold loads. destruct (json_loads w data); intros st; discriminate. Qed.

Lemma never_fetch_block (w : world) (h : string) :
  never_out_of_fuel (fetch_block w h).
Proof.
  unfold fetch_block. apply never_bind; [intros st; discriminate|].
  intros [|]; [intros st; discriminate|].
  apply never_bind; [apply never_request_block|]. intros r.
  destruct (truthy_bytes r); [|intros st; discriminate].
  apply never_bind; [intros st; discriminate|]. intros _.
  apply never_bind; [intros st; discriminate|]. intros _.
  destruct (negb _); intros st; discriminate.
Qed.

Lemma never_fetch_entry (w : world) (pf : option string) (cp : string)
    (entry : string * entry_data) :
  never_out_of_fuel (fetch_entry w pf cp entry).
Proof.
  unfold fetch_entry. destruct entry as [entry_name ed].
  match goal with |- context [if ?b then ret tt else _] => destruct b end;
    [intros st; discriminate|].
  apply never_bind; [intros st; discriminate|].
  intros [|]; [intros st; discriminate|].
  apply never_bind; [apply never_request_object|]. intros r.
  destruct (truthy_bytes r); [|intros st; discriminate].
  apply never_bind; [intros st; discriminate|]. intros _.
  apply never_bind; [apply never_loads|]. intros blob_dict.
  apply never_bind; [intros st; discriminate|]. intros _.
  destruct (block_hashes blob_dict); [|intros st; discriminate].
  apply never_for_each. intros x. apply never_fetch_block.
Qed.

Lemma never_fetch_tree (w : world) (t : string) (pf : option string)
    (cp : string) :
  never_out_of_fuel (_fetch_tree_recursive w t pf cp).
Proof.
  unfold _fetch_tree_recursive. apply never_bind; [intros st; discriminate|].
  intros [|]; [intros st; discriminate|].
  apply never_bind; [apply never_request_object|]. intros r.
  destruct (truthy_bytes r); [|intros st; discriminate].
  apply never_bind; [intros st; discriminate|]. intros _.
  apply never_bind; [apply never_loads|]. intros tree_dict.
  apply never_bind; [intros st; discriminate|]. intros _.
  destruct (entries tree_dict); [|intros st; discriminate].
  apply never_for_each. intros x. apply never_fetch_entry.
Qed.

Lemma never_tree_step (w : world) (obj : obj_dict) (pf : option string) :
  never_out_of_fuel (tree_step w obj pf).
Proof.
  unfold tree_step. destruct (tree_root obj); [|intros st; discriminate].
  apply never_fetch_tree.
Qed.

(** The call on a commit ends when the call on its parent does. *)
Lemma commit_received_ends (w : world) (fuel : nat) (h : string)
    (depth : option Z) (cd : Z) (pf : option string) (data : bytes)
    (st : state) :
  (forall obj p st',
      json_loads w data = Some obj -> truthy_parent obj = Some p ->
      within_depth depth cd = true -> fetched st' = fetched st ->
      fst (_fetch_objects_recursive w fuel p depth (cd + 1) pf st')
      <> OutOfFuel) ->
  fst (commit_received w fuel h depth cd pf data st) <> OutOfFuel.
Proof.
  intros Hrec. unfold commit_received, loads.
  destruct (json_loads w data) as [obj|] eqn:Hobj; [|discriminate].
  unfold bind at 1, ret at 1. unfold bind at 1, emit at 1.
  apply bind_not_out_of_fuel; [|intros _; apply never_tree_step].
  unfold parent_step. destruct (truthy_parent obj) as [p|] eqn:Hp;
    [|discriminate].
  destruct (within_depth depth cd) eqn:Hd; [|discriminate].
  now apply (Hrec obj).
Qed.

(** X13: a fetch with a depth limit [d] needs no more than [d] nested
    calls: with at least one unit of fuel and at least [d - current_depth]
    of them it returns or raises, whatever the remote answers. *)
Theorem shallow_fetch_terminates (w : world) (fuel : nat)
    (object_hash : string) (d current_depth : Z)
    (path_filter : option string) (st : state) :
  (1 <= fuel)%nat -> (d - current_depth <= Z.of_nat fuel)%Z ->
  fst (_fetch_objects_recursive w fuel object_hash (Some d) current_depth
         path_filter st) <> OutOfFuel.
Proof.
  revert object_hash current_depth st.
  induction fuel as [|fuel IH]; intros h cd st H1 H2; [lia|].
  destruct (decide (h ∈ fetched st)) as [Hin|Hin].
  { now rewrite fetch_objects_seen. }
  destruct (truthy_bytes (request_object w (trace st) h)) as [data|] eqn:T.
  2:{ now rewrite (fetch_objects_unanswered w _ _ _ _ _ _ Hin T). }
  rewrite (fetch_objects_answered w _ _ _ _ _ _ _ Hin T).
  apply commit_received_ends. intros obj p st' _ _ Hd _.
  simpl in Hd. apply Z.ltb_lt in Hd. apply IH; lia.
Qed.

Lemma shallow_fetch_terminates_witness :
  fst (_fetch_objects_recursive (chain_world None) 2 "C3" (Some 2%Z) 0 None
         initial_state) <> OutOfFuel
  /\ fst (_fetch_objects_recursive (chain_world None) 2 "C3" None 0 None
            initial_state) = OutOfFuel.
Proof.
  split.
  - apply shallow_fetch_terminates; [lia | vm_compute; discriminate].
  - vm_compute. reflexivity.
Defined.

(** X14: the visited set is enough for termination.  When every parent the
    remote can name lies in a finite set [U], a fetch of a commit of [U]
    with more fuel than [U] has hashes outside the visited set returns or
    raises, for every depth limit and none. *)
Theorem visited_set_bounds_fetch (w : world) (U : gset string) (fuel : nat)
    (object_hash : string) (depth : option Z) (current_depth : Z)
    (path_filter : option string) (st : state) :
  parents_within w U ->
  object_hash ∈ U ->
  (size (U ∖ fetched st) < fuel)%nat ->
  fst (_fetch_objects_recursive w fuel object_hash depth current_depth
         path_filter st) <> OutOfFuel.
Proof.
  intros HU. revert object_hash current_depth st.
  induction fuel as [|fuel IH]; intros h cd st Hh Hsize; [lia|].
  destruct (decide (h ∈ fetched st)) as [Hin|Hin].
  { now rewrite fetch_objects_seen. }
  destruct (truthy_bytes (request_object w (trace st) h)) as [data|] eqn:T.
  2:{ now rewrite (fetch_objects_unanswered w _ _ _ _ _ _ Hin T). }
  rewrite (fetch_objects_answered w _ _ _ _ _ _ _ Hin T).
  apply commit_received_ends. intros obj p st' Hobj Hp _ Hf.
  apply IH; [exact (HU data obj p Hobj Hp)|].
  rewrite Hf. cbn [fetched].
  assert (Hsub : U ∖ ({[h]} ∪ fetched st) ⊂ U ∖ fetched st) by set_solver.
  apply subset_size in Hsub. lia.
Qed.

Lemma chain_parents_within :
  parents_within (chain_world None) {["C1"; "C2"; "C3"]}.
Proof.
  intros data obj p. cbn [json_loads chain_world table_world].
  generalize (string_of_list_byte data). intros s. unfold chain_objects, assoc.
  repeat (destruct (String.eqb s _); [intros [= <-]; cbn; intros [= <-];
                                      set_solver|]).
  discriminate.
Qed.

Lemma visited_set_bounds_fetch_witness :
  fst (_fetch_objects_recursive (chain_world None) 4 "C3" None 0 None
         initial_state) <> OutOfFuel.
Proof.
  apply (visited_set_bounds_fetch (chain_world None) {["C1"; "C2"; "C3"]}).
  - exact chain_parents_within.
  - set_solver.
  - vm_compute. lia.
Defined.

(** ** What clone and pull publish *)

Lemma no_request_in_ref_writes (refs : list (string * string))
    (tail : list event) :
  existsb is_request tail = false ->
  existsb is_request
    (map (fun ref => WriteRef (fst ref) (snd ref)) refs ++ tail) = false.
Proof.
  intros H. rewrite existsb_app, H, orb_false_r.
  induction refs as [|x xs IH]; simpl; auto.
Qed.

(** The events of clone and pull around the fetch. *)
Lemma cut_at_fetch (st st' : state) (F : gset string)
    (pre evs post : list event) :
  trace st' = trace (State F (trace st ++ pre)) ++ evs ->
  existsb is_ref_write pre = false ->
  existsb is_ref_write evs = false ->
  existsb is_request post = false ->
  exists before after,
    events_since st (add_events st' post) = before ++ after
    /\ existsb is_ref_write before = false
    /\ existsb is_request after = false.
Proof.
  intros Ht Hpre Hevs Hpost. exists (pre ++ evs), post.
  rewrite (events_since_later _ _ _ _ _ _ Ht), <- app_assoc.
  split; [reflexivity|]. split; [|exact Hpost].
  now rewrite existsb_app, Hpre, Hevs.
Qed.

Lemma cut_early (st : state) (evs : list event) :
  existsb is_ref_write evs = false ->
  exists before after,
    events_since st (add_events st evs) = before ++ after
    /\ existsb is_ref_write before = false
    /\ existsb is_request after = false.
Proof.
  intros H. exists evs, []. rewrite events_since_add, app_nil_r. now repeat split.
Qed.

Lemma add_no_events (st : state) : add_events st [] = st.
Proof. destruct st. unfold add_events. simpl. now rewrite app_nil_r. Qed.

(** X15: refs are published after the last request.  The events of a
    clone, and of a pull, split in two parts: the first holds no write to a
    ref or to HEAD, the second no object or block request. *)
Theorem refs_written_after_requests (w : world) (fuel : nat) (st : state) :
  (forall url target_dir depth path_filter,
      exists before after,
        run_events (clone_repository w fuel url target_dir depth path_filter)
          st = before ++ after
        /\ existsb is_ref_write before = false
        /\ existsb is_request after = false)
  /\ (forall remote_name branch,
      exists before after,
        run_events (pull_from_remote w fuel remote_name branch) st
        = before ++ after
        /\ existsb is_ref_write before = false
        /\ existsb is_request after = false).
Proof.
  split.
  - intros url target_dir depth path_filter.
    unfold run_events. rewrite clone_repository_run.
    destruct (target_dir_not_empty w); [now apply cut_early|].
    destruct (negb (config_loaded w)); [now apply cut_early|].
    cbv zeta.
    destruct (negb (handshake w (trace st))); [now apply cut_early|].
    destruct (request_refs w _) as [|ref refs]; [now apply cut_early|].
    destruct (truthy_opt_str _) as [main_commit|]; [|now apply cut_early].
    match goal with |- context [_fetch_objects_recursive w fuel ?h ?d ?c ?p ?s] =>
      destruct (good_fetch_objects w fuel h d c p s) as [evs G];
      destruct (_fetch_objects_recursive w fuel h d c p s) as [[[]|e|] st']
    end; cbn [fst snd] in *.
    + eapply cut_at_fetch; [exact (gr_trace _ _ _ _ _ G) | reflexivity
                           | exact (gr_refs _ _ _ _ _ G) |].
      now apply no_request_in_ref_writes.
    + destruct (cut_at_fetch st st' _ _ evs [clone_failed e]
                  (gr_trace _ _ _ _ _ G) eq_refl (gr_refs _ _ _ _ _ G) eq_refl)
        as (b & a & H). now exists b, a.
    + rewrite <- (add_no_events st').
      eapply cut_at_fetch; [exact (gr_trace _ _ _ _ _ G) | reflexivity
                           | exact (gr_refs _ _ _ _ _ G) | reflexivity].
  - intros remote_name branch.
    unfold run_events. rewrite pull_from_remote_run.
    destruct (get_remote w remote_name); [|now apply cut_early].
    cbv zeta.
    destruct (negb (handshake w (trace st))); [now apply cut_early|].
    destruct (truthy_opt_str _) as [remote_commit|]; [|now apply cut_early].
    case_bool_decide; [now apply cut_early|].
    match goal with |- context [_fetch_objects_recursive w fuel ?h ?d ?c ?p ?s] =>
      destruct (good_fetch_objects w fuel h d c p s) as [evs G];
      destruct (_fetch_objects_recursive w fuel h d c p s) as [[[]|e|] st']
    end; cbn [fst snd] in *.
    + eapply cut_at_fetch; [exact (gr_trace _ _ _ _ _ G) | reflexivity
                           | exact (gr_refs _ _ _ _ _ G) | reflexivity].
    + eapply cut_at_fetch; [exact (gr_trace _ _ _ _ _ G) | reflexivity
                           | exact (gr_refs _ _ _ _ _ G) | reflexivity].
    + rewrite <- (add_no_events st').
      eapply cut_at_fetch; [exact (gr_trace _ _ _ _ _ G) | reflexivity
                           | exact (gr_refs _ _ _ _ _ G) | reflexivity].
Qed.

(** X16: a clone that returns [True] found a non-empty hash under [main],
    requested no other commit as its tip, and then wrote a ref file for
    every branch the remote advertised, fetched or not, and pointed HEAD at
    [main]. *)
Theorem clone_publishes_every_ref (w : world) (fuel : nat)
    (url target_dir : string) (depth : option Z)
    (path_filter : option string) (st : state) :
  let run := clone_repository w fuel url target_dir depth path_filter in
  let refs := request_refs w (trace st ++ [Handshake true]) in
  fst (run st) = Returned true ->
  (exists main_commit,
      dict_get "main" refs = Some main_commit /\ main_commit <> ""
      /\ forall h rep, RequestObject (AtCommit 0) h rep ∈ run_events run st ->
                       h = main_commit)
  /\ (forall ref, ref ∈ refs -> WriteRef ref.1 ref.2 ∈ run_events run st)
  /\ WriteHead "ref: refs/heads/main" ∈ run_events run st.
Proof.
  intros run refs. unfold run_events. subst run.
  rewrite clone_repository_run.
  destruct (target_dir_not_empty w); [discriminate|].
  destruct (negb (config_loaded w)); [discriminate|].
  cbv zeta.
  destruct (handshake w (trace st)); cbn [negb]; [|discriminate].
  fold refs. destruct refs as [|ref0 refs0] eqn:Er; [discriminate|].
  destruct (dict_get "main" (ref0 :: refs0)) as [main_commit|] eqn:Em;
    cbn [truthy_opt_str]; [|discriminate].
  destruct (truthy_str main_commit) eqn:Et; [|discriminate].
  match goal with |- context [_fetch_objects_recursive w fuel ?h ?d ?c ?p ?s] =>
    destruct (good_fetch_objects w fuel h d c p s) as [evs G];
    destruct (_fetch_objects_recursive w fuel h d c p s) as [[[]|e|] st']
  end; cbn [fst snd] in *; try discriminate.
  intros _. rewrite (events_since_later _ _ _ _ _ _ (gr_trace _ _ _ _ _ G)).
  split; [|split].
  - exists main_commit. split; [reflexivity|].
    split; [intros ->; discriminate|].
    intros h rep Hev.
    apply elem_of_cons in Hev as [Hev|Hev]; [discriminate|].
    apply elem_of_cons in Hev as [Hev|Hev]; [discriminate|].
    apply elem_of_app in Hev as [Hev|Hev].
    + destruct (gr_sites _ _ _ _ _ G _ _ _ Hev) as [[[_ ->]|Hlt] _];
        [reflexivity | lia].
    + exfalso. apply elem_of_app in Hev as [Hev|Hev].
      * apply list_elem_of_fmap in Hev as (x & Hx & _). discriminate.
      * repeat (apply elem_of_cons in Hev as [Hev|Hev]; [discriminate|]).
        now apply elem_of_nil in Hev.
  - intros ref Hin. do 2 (apply elem_of_cons; right).
    apply elem_of_app. right. apply elem_of_app. left.
    apply list_elem_of_fmap. now exists ref.
  - do 2 (apply elem_of_cons; right).
    apply elem_of_app. right. apply elem_of_app. right.
    apply elem_of_cons. now left.
Qed.

Lemma clone_publishes_every_ref_witness :
  let run := clone_repository two_branch_world 3 "cof://h/r" "work" None None in
  fst (run initial_state) = Returned true
  /\ WriteRef "dev" "D9" ∈ run_events run initial_state
  /\ ("D9" ∉ requested_hashes (run_events run initial_state)).
Proof.
  intros run.
  assert (H : fst (run initial_state) = Returned true)
    by (vm_compute; reflexivity).
  split; [exact H|]. split.
  - destruct (clone_publishes_every_ref two_branch_world 3 "cof://h/r" "work"
                None None initial_state H) as (_ & Hrefs & _).
    apply (Hrefs ("dev", "D9")).
    apply elem_of_cons. right. apply elem_of_cons. now left.
  - intros Hin. apply list_elem_of_In in Hin. vm_compute in Hin.
    repeat (destruct Hin as [Hin|Hin]; [discriminate|]). exact Hin.
Defined.

(** ** What the fetch stores *)

Section Accounting.

Variable w : world.

Lemma stores_received_nil : stores_received w [].
Proof. split; intros; now apply elem_of_nil in H. Qed.

Lemma stores_received_app (l1 l2 : list event) :
  stores_received w l1 -> stores_received w l2 ->
  stores_received w (l1 ++ l2).
Proof.
  intros [S1 B1] [S2 B2]. split.
  - intros h o H. apply elem_of_app in H as [H|H].
    + destruct (S1 h o H) as (s & data & Hr & Hj). exists s, data.
      split; [apply elem_of_app; now left | exact Hj].
    + destruct (S2 h o H) as (s & data & Hr & Hj). exists s, data.
      split; [apply elem_of_app; now right | exact Hj].
  - intros data seq stored H. apply elem_of_app in H as [H|H].
    + destruct (B1 _ _ _ H) as (-> & -> & h & Hr). repeat split.
      exists h. apply elem_of_app. now left.
    + destruct (B2 _ _ _ H) as (-> & -> & h & Hr). repeat split.
      exists h. apply elem_of_app. now right.
Qed.

Lemma accounted_run_seq (st st1 st2 : state) (evs1 evs2 : list event) :
  accounted_run w st st1 evs1 -> accounted_run w st1 st2 evs2 ->
  accounted_run w st st2 (evs1 ++ evs2).
Proof.
  intros [T1 S1 F1] [T2 S2 F2]. split.
  - rewrite T2, T1. now rewrite app_assoc.
  - now apply stores_received_app.
  - rewrite requested_hashes_app, list_to_set_app_L. set_solver.
Qed.

Lemma accounted_run_refl (st : state) : accounted_run w st st [].
Proof.
  split; [now rewrite app_nil_r | apply stores_received_nil | set_solver].
Qed.

Lemma accounted_still {A} (m : M A) :
  (forall st, snd (m st) = st) -> accounted w m.
Proof. intros H st. exists []. rewrite H. apply accounted_run_refl. Qed.

Lemma accounted_bind {A B} (m : M A) (k : A -> M B) :
  accounted w m -> (forall a, accounted w (k a)) -> accounted w (bind m k).
Proof.
  intros Hm Hk st. destruct (Hm st) as [evs1 G1]. unfold bind.
  destruct (m st) as [[a|e|] st1]; cbn [snd] in *.
  - destruct (Hk a st1) as [evs2 G2]. exists (evs1 ++ evs2).
    now apply (accounted_run_seq _ st1).
  - now exists evs1.
  - now exists evs1.
Qed.

Lemma accounted_for_each {A} (xs : list A) (body : A -> M unit) :
  (forall x, accounted w (body x)) -> accounted w (for_each xs body).
Proof.
  intros Hb. induction xs as [|x xs IH]; simpl.
  - now apply accounted_still.
  - apply accounted_bind; [apply Hb | intros _; exact IH].
Qed.

(** One event that stores nothing. *)
Lemma accounted_run_event (st : state) (F : gset string) (e : event) :
  (forall h o, e <> SaveObject h o) ->
  (forall d n x, e <> StoreBlock d n x) ->
  F ⊆ fetched st ∪ list_to_set (requested_hashes [e]) ->
  accounted_run w st (State F (trace st ++ [e])) [e].
Proof.
  intros Hs Hb HF. split; [reflexivity| |exact HF]. split.
  - intros h o H. apply list_elem_of_singleton in H. now destruct (Hs h o).
  - intros d n x H. apply list_elem_of_singleton in H. now destruct (Hb d n x).
Qed.

(** Once the reply for [h] is in the trace: decode, save, go on. *)
Lemma accounted_saved (s : site) (h : string) (data : bytes)
    (K : obj_dict -> M unit) (st0 st : state) :
  (forall o, accounted w (K o)) ->
  trace st = trace st0 ++ [RequestObject s h (Some data)] ->
  fetched st ⊆ {[h]} ∪ fetched st0 ->
  exists evs,
    accounted_run w st0
      (snd ((o <- loads w data ;; emit (SaveObject h o) ;;; K o) st)) evs.
Proof.
  intros HK Ht Hf. unfold loads.
  assert (Hreq : requested_hashes [RequestObject s h (Some data)] = [h])
    by reflexivity.
  destruct (json_loads w data) as [o|] eqn:Hj.
  - unfold bind at 1, ret at 1. unfold bind at 1, emit at 1.
    match goal with |- context [K o ?s2] =>
      destruct (HK o s2) as [evsK [TK SK FK]]; cbn [trace fetched] in *
    end.
    exists ([RequestObject s h (Some data); SaveObject h o] ++ evsK).
    split.
    + rewrite TK, Ht. now rewrite <- !app_assoc.
    + apply stores_received_app; [|exact SK]. split.
      * intros h' o' H. apply elem_of_cons in H as [H|H]; [discriminate|].
        apply list_elem_of_singleton in H. injection H as <- <-.
        exists s, data. split; [apply elem_of_cons; now left | exact Hj].
      * intros d n x H. apply elem_of_cons in H as [H|H]; [discriminate|].
        apply list_elem_of_singleton in H. discriminate.
    + rewrite requested_hashes_app, list_to_set_app_L.
      change (requested_hashes [RequestObject s h (Some data); SaveObject h o])
        with [h].
      set_solver.
  - unfold bind, raise. cbn [snd].
    exists [RequestObject s h (Some data)]. split; [exact Ht| |].
    + split; intros ? ? ? ; try intros ?;
        match goal with H : _ ∈ [_] |- _ =>
          apply list_elem_of_singleton in H; discriminate end.
    + rewrite Hreq. set_solver.
Qed.

Lemma accounted_requested (s : site) (h msg : string)
    (K : obj_dict -> M unit) :
  (forall o, accounted w (K o)) ->
  accounted w
    (obj_data <- client_request_object w s h ;;
     match truthy_bytes obj_data with
     | None => raise (ClickException msg)
     | Some data =>
         fetched_add h ;;; o <- loads w data ;; emit (SaveObject h o) ;;; K o
     end).
Proof.
  intros HK st.
  unfold bind at 1, client_request_object, bind at 1, get_trace, bind at 1,
    emit at 1, ret at 1.
  cbn [fst snd trace fetched].
  destruct (truthy_bytes (request_object w (trace st) h)) as [data|] eqn:T.
  - destruct (truthy_bytes_answered _ _ T) as (-> & _).
    unfold bind at 1, fetched_add at 1.
    apply (accounted_saved s h data K st); [exact HK|reflexivity|].
    cbn [fetched]. set_solver.
  - eexists. cbn [snd raise]. apply accounted_run_event; try discriminate.
    cbn [fetched]. set_solver.
Qed.

Lemma accounted_commit_requested (s : site) (h msg : string)
    (K : obj_dict -> M unit) :
  (forall o, accounted w (K o)) ->
  accounted w
    (fetched_add h ;;;
     obj_data <- client_request_object w s h ;;
     match truthy_bytes obj_data with
     | None => raise (ClickException msg)
     | Some data => o <- loads w data ;; emit (SaveObject h o) ;;; K o
     end).
Proof.
  intros HK st. unfold bind at 1, fetched_add at 1.
  unfold bind at 1, client_request_object, bind at 1, get_trace, bind at 1,
    emit at 1, ret at 1.
  cbn [fst snd trace fetched].
  destruct (truthy_bytes (request_object w (trace st) h)) as [data|] eqn:T.
  - destruct (truthy_bytes_answered _ _ T) as (-> & _).
    apply (accounted_saved s h data K st); [exact HK|reflexivity|].
    cbn [fetched]. set_solver.
  - eexists. cbn [snd raise]. apply accounted_run_event; try discriminate.
    cbn [fetched].
    change (requested_hashes [RequestObject s h (request_object w (trace st) h)])
      with [h].
    set_solver.
Qed.

Lemma accounted_fetch_block (block_hash : string) :
  accounted w (fetch_block w block_hash).
Proof.
  intros st. unfold fetch_block.
  unfold bind at 1, is_fetched at 1. case_bool_decide as Hin.
  { exists []. apply accounted_run_refl. }
  unfold bind at 1, client_request_block, bind at 1, get_trace, bind at 1,
    emit at 1, ret at 1.
  cbn [fst snd trace fetched].
  destruct (truthy_bytes (request_block w (trace st) block_hash))
    as [data|] eqn:T.
  - destruct (truthy_bytes_answered _ _ T) as (-> & _).
    unfold bind at 1, fetched_add at 1. unfold bind at 1, emit at 1.
    cbn [trace fetched].
    assert (HS : stores_received w
              [RequestBlock block_hash (Some data);
               StoreBlock data 0 (store_block w data 0)]).
    { split.
      - intros h o H. repeat (apply elem_of_cons in H as [H|H]; [discriminate|]).
        now apply elem_of_nil in H.
      - intros d n x H. apply elem_of_cons in H as [H|H]; [discriminate|].
        apply list_elem_of_singleton in H. injection H as -> -> ->.
        repeat split. exists block_hash. apply elem_of_cons. now left. }
    destruct (negb _).
    + eexists. unfold emit. cbn [snd trace fetched]. split.
      * rewrite <- !app_assoc. reflexivity.
      * apply (stores_received_app [_; _] [_]); [exact HS|]. split.
        -- intros h o H. apply list_elem_of_singleton in H. discriminate.
        -- intros d n x H. apply list_elem_of_singleton in H. discriminate.
      * cbn. set_solver.
    + eexists. unfold ret. cbn [snd trace fetched]. split.
      * rewrite <- !app_assoc. reflexivity.
      * exact HS.
      * cbn. set_solver.
  - eexists. cbn [snd raise]. apply accounted_run_event; try discriminate.
    cbn [fetched]. set_solver.
Qed.

Lemma accounted_fetch_entry (pf : option string) (cp : string)
    (entry : string * entry_data) :
  accounted w (fetch_entry w pf cp entry).
Proof.
  unfold fetch_entry. destruct entry as [entry_name ed].
  match goal with |- context [if ?b then ret tt else _] => destruct b end;
    [now apply accounted_still|].
  apply accounted_bind; [now apply accounted_still|].
  intros [|]; [now apply accounted_still|].
  apply accounted_requested. intros blob_dict.
  destruct (block_hashes blob_dict); [|now apply accounted_still].
  apply accounted_for_each. intros x. apply accounted_fetch_block.
Qed.

Lemma accounted_fetch_tree (t : string) (pf : option string) (cp : string) :
  accounted w (_fetch_tree_recursive w t pf cp).
Proof.
  unfold _fetch_tree_recursive.
  apply accounted_bind; [now apply accounted_still|].
  intros [|]; [now apply accounted_still|].
  apply accounted_requested. intros tree_dict.
  destruct (entries tree_dict); [|now apply accounted_still].
  apply accounted_for_each. intros x. apply accounted_fetch_entry.
Qed.

Lemma accounted_fetch_objects (fuel : nat) (h : string) (depth : option Z)
    (cd : Z) (pf : option string) :
  accounted w (_fetch_objects_recursive w fuel h depth cd pf).
Proof.
  revert h cd. induction fuel as [|fuel IH]; intros h cd.
  - now apply accounted_still.
  - rewrite fetch_objects_unfold.
    apply accounted_bind; [now apply accounted_still|].
    intros [|]; [now apply accounted_still|].
    unfold commit_received. apply accounted_commit_requested. intros obj.
    apply accounted_bind.
    + unfold parent_step. destruct (truthy_parent obj);
        [|now apply accounted_still].
      destruct (within_depth depth cd); [apply IH | now apply accounted_still].
    + intros _. unfold tree_step. destruct (tree_root obj);
        [apply accounted_fetch_tree | now apply accounted_still].
Qed.

End Accounting.

(** X17: whatever a fetch stores, it received.  Every object is saved
    under the hash it was requested by, as the object its reply decodes
    to; every block is stored with commit sequence 0, as the bytes of a
    block reply, under the hash the store returns for them. *)
Theorem fetch_stores_what_it_received (w : world) (fuel : nat)
    (object_hash : string) (depth : option Z) (current_depth : Z)
    (path_filter : option string) (st : state) :
  let evs :=
    run_events (_fetch_objects_recursive w fuel object_hash depth
                  current_depth path_filter) st in
  (forall h o, SaveObject h o ∈ evs ->
     exists s data, RequestObject s h (Some data) ∈ evs
                    /\ json_loads w data = Some o)
  /\ (forall data seq stored, StoreBlock data seq stored ∈ evs ->
        seq = 0%Z /\ stored = store_block w data 0
        /\ exists h, RequestBlock h (Some data) ∈ evs).
Proof.
  intros evs. subst evs. unfold run_events.
  destruct (accounted_fetch_objects w fuel object_hash depth current_depth
              path_filter st) as [evs [T S _]].
  rewrite (events_since_app _ _ _ T). exact S.
Qed.

Lemma fetch_stores_what_it_received_witness :
  exists s data,
    RequestObject s "blob1" (Some data)
      ∈ run_events (_fetch_objects_recursive tampered_world 2 "c1" None 0 None)
          initial_state
    /\ json_loads tampered_world data = Some (blob_obj ["hello"]).
Proof.
  apply (proj1 (fetch_stores_what_it_received tampered_world 2 "c1" None 0
                  None initial_state)).
  apply list_elem_of_In. vm_compute. tauto.
Defined.

(** X18: after a fetch that did not raise, the visited set is the one it
    started from together with the hashes it requested, no more and no
    less. *)
Theorem visited_is_start_plus_requested (w : world) (fuel : nat)
    (object_hash : string) (depth : option Z) (current_depth : Z)
    (path_filter : option string) (st : state) :
  let run := _fetch_objects_recursive w fuel object_hash depth current_depth
               path_filter in
  (forall e, fst (run st) <> Raised e) ->
  fetched (snd (run st))
  = fetched st ∪ list_to_set (requested_hashes (run_events run st)).
Proof.
  intros run Hr.
  pose proof (good_run_events _ run st
                (good_fetch_objects w fuel object_hash depth current_depth
                   path_filter)) as G.
  destruct (accounted_fetch_objects w fuel object_hash depth current_depth
              path_filter st) as [evs [T _ F]].
  fold run in T, F. unfold run_events. rewrite (events_since_app _ _ _ T).
  unfold run_events in G. rewrite (events_since_app _ _ _ T) in G.
  apply set_eq. intros x. split; [apply F|].
  intros Hx. apply elem_of_union in Hx as [Hx|Hx].
  - now apply (gr_mono _ _ _ _ _ G).
  - apply (gr_done _ _ _ _ _ G Hr). now apply elem_of_list_to_set in Hx.
Qed.

Lemma visited_is_start_plus_requested_witness :
  let run := _fetch_objects_recursive twice_world 2 "c1" None 0 None in
  fetched (snd (run initial_state))
  = ∅ ∪ list_to_set (requested_hashes (run_events run initial_state)).
Proof.
  apply (visited_is_start_plus_requested twice_world 2 "c1" None 0 None
           initial_state).
  intros e. vm_compute. discriminate.
Defined.

(** ** The path filter in the tree walk *)

Lemma good_for_each_in C {A} (xs : list A) (body : A -> M unit) :
  (forall x, x ∈ xs -> good C (body x)) -> good C (for_each xs body).
Proof.
  induction xs as [|x xs IH]; intros Hb; simpl.
  - apply good_ret.
  - apply good_bind.
    + apply Hb. apply elem_of_cons. now left.
    + intros _. apply IH. intros y Hy. apply Hb. apply elem_of_cons. now right.
Qed.

Lemma good_fetch_entry_passing (w : world) (C : site -> string -> Prop)
    (pf : option string) (cp : string) (entry : string * entry_data) :
  (passes_filter w pf cp entry.1 = true -> C AtBlob (hash entry.2)) ->
  good C (fetch_entry w pf cp entry).
Proof.
  intros HC. unfold fetch_entry. destruct entry as [entry_name ed].
  unfold passes_filter in HC. cbn [fst snd] in HC.
  destruct (truthy_opt_str pf) as [pat|].
  - destruct (_matches_filter _ _ pat); cbn [negb]; [|apply good_ret].
    apply good_guarded_object; [now apply HC|]. intros data.
    apply good_bind; [apply good_loads|]. intros blob_dict.
    apply good_bind; [apply good_emit, quiet_SaveObject|]. intros _.
    destruct (block_hashes blob_dict); [|apply good_ret].
    apply good_for_each. intros x. apply good_fetch_block.
  - apply good_guarded_object; [now apply HC|]. intros data.
    apply good_bind; [apply good_loads|]. intros blob_dict.
    apply good_bind; [apply good_emit, quiet_SaveObject|]. intros _.
    destruct (block_hashes blob_dict); [|apply good_ret].
    apply good_for_each. intros x. apply good_fetch_block.
Qed.

(** A tree that is not in [fetched] and arrives: the walk over its
    entries starts with the tree requested and saved. *)
Lemma fetch_tree_answered (w : world) (t : string) (pf : option string)
    (cp : string) (st : state) (data : bytes) (tree_dict : obj_dict) :
  t ∉ fetched st ->
  truthy_bytes (request_object w (trace st) t) = Some data ->
  json_loads w data = Some tree_dict ->
  _fetch_tree_recursive w t pf cp st
  = match entries tree_dict with
    | Some es => for_each es (fetch_entry w pf cp)
    | None => ret tt
    end
      (State ({[t]} ∪ fetched st)
         (trace st ++ [RequestObject AtTree t (Some data);
                       SaveObject t tree_dict])).
Proof.
  intros Hin T Hj. unfold _fetch_tree_recursive.
  unfold bind at 1, is_fetched. rewrite bool_decide_eq_false_2 by assumption.
  unfold bind at 1, client_request_object, bind at 1, get_trace, bind at 1,
    emit at 1, ret at 1.
  cbn [fst snd trace fetched]. rewrite T.
  destruct (truthy_bytes_answered _ _ T) as (-> & _).
  unfold bind at 1, fetched_add at 1. unfold loads. rewrite Hj.
  unfold bind at 1, ret at 1. unfold bind at 1, emit at 1.
  cbn [trace fetched]. now rewrite <- app_assoc.
Qed.

(** X19: the path filter decides what a tree walk downloads.  In the walk
    of a tree that arrives and decodes, the only tree requested is the
    tree itself, and every other object request is for the hash of one of
    its entries whose path passes the filter; an entry that fails the
    filter is never requested on its own account. *)
Theorem filtered_entries_not_requested (w : world) (tree_hash : string)
    (path_filter : option string) (current_path : string) (st : state)
    (data : bytes) (tree_dict : obj_dict) (s : site) (h : string)
    (rep : option bytes) :
  tree_hash ∉ fetched st ->
  request_object w (trace st) tree_hash = Some data ->
  data <> [] ->
  json_loads w data = Some tree_dict ->
  RequestObject s h rep
    ∈ run_events (_fetch_tree_recursive w tree_hash path_filter current_path)
        st ->
  (s = AtTree /\ h = tree_hash)
  \/ (s = AtBlob
      /\ exists es entry,
           entries tree_dict = Some es /\ entry ∈ es /\ hash entry.2 = h
           /\ passes_filter w path_filter current_path entry.1 = true).
Proof.
  intros Hin Hreq Hdata Hj.
  assert (T : truthy_bytes (request_object w (trace st) tree_hash) = Some data).
  { rewrite Hreq. now destruct data. }
  unfold run_events.
  rewrite (fetch_tree_answered w _ _ _ _ _ _ Hin T Hj).
  set (C := fun (s : site) (h : string) =>
              s = AtBlob
              /\ exists es entry,
                   entries tree_dict = Some es /\ entry ∈ es
                   /\ hash entry.2 = h
                   /\ passes_filter w path_filter current_path entry.1 = true).
  assert (G : good C match entries tree_dict with
                     | Some es => for_each es (fetch_entry w path_filter
                                                current_path)
                     | None => ret tt
                     end).
  { destruct (entries tree_dict) as [es|] eqn:He; [|apply good_ret].
    apply good_for_each_in. intros entry Hentry.
    apply good_fetch_entry_passing. intros Hp. split; [reflexivity|].
    now exists es, entry. }
  match goal with |- context [events_since st (snd (?m ?s2))] =>
    pose proof (good_run_events C m s2 G) as GR;
    rewrite (events_since_trans st s2 _
               [RequestObject AtTree tree_hash (Some data);
                SaveObject tree_hash tree_dict] _ eq_refl
               (gr_trace _ _ _ _ _ GR))
  end.
  intros Hev. apply elem_of_app in Hev as [Hev|Hev].
  - apply elem_of_cons in Hev as [Hev|Hev]; [injection Hev as -> -> _; now left|].
    apply list_elem_of_singleton in Hev. discriminate.
  - right. exact (gr_sites _ _ _ _ _ GR _ _ _ Hev).
Qed.

Lemma filtered_entries_not_requested_witness :
  let evs := run_events (_fetch_tree_recursive filter_world "t1" (Some "*.md") "")
               initial_state in
  requested_hashes evs = ["t1"; "blobR"]
  /\ ((AtBlob = AtTree /\ "blobR" = "t1")
      \/ (AtBlob = AtBlob
          /\ exists es entry,
               entries (tree_obj [("README.md", EntryData file "blobR");
                                  ("docs", EntryData dir "t2");
                                  ("src", EntryData dir "t3")]) = Some es
               /\ entry ∈ es /\ hash entry.2 = "blobR"
               /\ passes_filter filter_world (Some "*.md") "" entry.1 = true)).
Proof.
  intros evs. split; [vm_compute; reflexivity|].
  apply (filtered_entries_not_requested filter_world "t1" (Some "*.md") ""
           initial_state (list_byte_of_string "t1") _ AtBlob "blobR"
           (Some (list_byte_of_string "blobR"))).
  - apply not_elem_of_empty.
  - reflexivity.
  - discriminate.
  - reflexivity.
  - apply list_elem_of_In. vm_compute. tauto.
Defined.

(** With the pattern [docs/*] the entry [docs] of the root tree does not
    pass, so nothing of the directory is downloaded. *)
Example filter_skips_directory_itself :
  requested_hashes
    (run_events (_fetch_objects_recursive filter_world 2 "c1" None 0
                   (Some "docs/*")) initial_state)
  = ["c1"; "t1"].
Proof. vm_compute. reflexivity. Qed.

(** ** Patterns that end in two stars *)

Lemma split_prefix_star2 (prefix cur : string) :
  has_star2 (prefix +:+ "*") = false ->
  split_star2_from cur (prefix +:+ "**") = [cur +:+ prefix; EmptyString].
Proof.
  revert cur. induction prefix as [|a t IH]; intros cur H.
  - change (EmptyString +:+ "**") with "**". cbn [split_star2_from].
    now rewrite append_empty_r.
  - destruct t as [|b t'].
    + change (String a EmptyString +:+ "*") with (String a "*") in H.
      change (String a EmptyString +:+ "**") with (String a "**").
      change (has_star2 (String a "*"))
        with ((Ascii.eqb a "*" && Ascii.eqb "*" "*") || false) in H.
      rewrite orb_false_r, andb_true_r in H.
      change (split_star2_from cur (String a "**"))
        with (if Ascii.eqb a "*" && Ascii.eqb "*" "*"
              then cur :: split_star2_from EmptyString "*"
              else split_star2_from (cur +:+ String a EmptyString) "**").
      rewrite H. reflexivity.
    + change (String a (String b t') +:+ "*")
        with (String a (String b (t' +:+ "*"))) in H.
      change (String a (String b t') +:+ "**")
        with (String a (String b (t' +:+ "**"))).
      change (has_star2 (String a (String b (t' +:+ "*"))))
        with ((Ascii.eqb a "*" && Ascii.eqb b "*")
              || has_star2 (String b (t' +:+ "*"))) in H.
      apply orb_false_iff in H as [H1 H2].
      change (split_star2_from cur (String a (String b (t' +:+ "**"))))
        with (if Ascii.eqb a "*" && Ascii.eqb b "*"
              then cur :: split_star2_from EmptyString (t' +:+ "**")
              else split_star2_from (cur +:+ String a EmptyString)
                     (String b (t' +:+ "**"))).
      rewrite H1.
      change (String b (t' +:+ "**")) with (String b t' +:+ "**").
      rewrite (IH (cur +:+ String a EmptyString) H2).
      now rewrite append_snoc.
Qed.

(** X20: a pattern that is a prefix followed by ['**'] (the prefix without
    ['**'] and not ending in a star) accepts exactly the paths that start
    with the prefix stripped of its trailing slashes; the glob matcher is
    not consulted, so [docs/**] also accepts [docs-old/x]. *)
Theorem prefix_star2_accepts_by_prefix (fnmatch : string -> string -> bool)
    (path prefix : string) :
  has_star2 (prefix +:+ "*") = false ->
  _matches_filter fnmatch path (prefix +:+ "**")
  = startswith (rstrip_slash prefix) path.
Proof.
  intros H. pose proof (split_prefix_star2 prefix EmptyString H) as Hs.
  change (EmptyString +:+ prefix) with prefix in Hs.
  unfold _matches_filter.
  destruct (has_star2 (prefix +:+ "**")) eqn:E.
  - unfold split_star2. rewrite Hs. cbn [truthy_str].
    destruct prefix as [|c p']; [reflexivity|]. cbn [truthy_str andb].
    now destruct (startswith _ path).
  - destruct (split_from_plain _ EmptyString E) as [Hp _].
    rewrite Hp in Hs. discriminate.
Qed.

Lemma prefix_star2_accepts_by_prefix_witness :
  _matches_filter (fun _ _ => false) "docs-old/x" "docs/**" = true
  /\ _matches_filter (fun _ _ => false) "src/docs/x" "docs/**" = false.
Proof.
  split.
  - exact (prefix_star2_accepts_by_prefix (fun _ _ => false) "docs-old/x"
             "docs/" eq_refl).
  - exact (prefix_star2_accepts_by_prefix (fun _ _ => false) "src/docs/x"
             "docs/" eq_refl).
Defined.

(** ** Pull that stops before the fetch *)

(** X21: when the remote is not registered, or the handshake fails, or the
    refs of the remote hold no non-empty hash for the branch,
    [pull_from_remote] returns [False] after a trace without any object or
    block request, write to a ref or restore of the working tree. *)
Theorem pull_stops_before_fetch (w : world) (fuel : nat)
    (remote_name branch : string) (st : state) :
  let run := pull_from_remote w fuel remote_name branch in
  get_remote w remote_name = None
  \/ handshake w (trace st) = false
  \/ truthy_opt_str
       (dict_get branch
          (request_refs w (trace st ++ [Handshake (handshake w (trace st))])))
     = None ->
  fst (run st) = Returned false
  /\ forall e, e ∈ run_events run st ->
       is_request e = false /\ is_ref_write e = false
       /\ e <> RestoreWorkingTree.
Proof.
  intros run H. unfold run_events. subst run. rewrite pull_from_remote_run.
  assert (Hin : forall evs : list event,
             Forall (fun e => is_request e = false /\ is_ref_write e = false
                              /\ e <> RestoreWorkingTree) evs ->
             forall e, e ∈ events_since st (add_events st evs) ->
               is_request e = false /\ is_ref_write e = false
               /\ e <> RestoreWorkingTree).
  { intros evs HF e. rewrite events_since_add.
    rewrite Forall_forall in HF. apply HF. }
  destruct (get_remote w remote_name) as [u|].
  2:{ split; [reflexivity|]. apply Hin.
      repeat constructor; discriminate. }
  cbv zeta. destruct (handshake w (trace st)); cbn [negb].
  2:{ split; [reflexivity|]. apply Hin.
      repeat constructor; discriminate. }
  destruct H as [H|[H|H]]; try discriminate. rewrite H.
  split; [reflexivity|]. apply Hin. repeat constructor; discriminate.
Qed.

Lemma pull_stops_before_fetch_witness :
  let run := pull_from_remote (chain_world None) 3 "origin" "release" in
  fst (run initial_state) = Returned false
  /\ run_events run initial_state
     = [Handshake true; RequestRefs [("main", "C3")];
        Echo "Pull failed: Remote branch 'release' not found."].
Proof.
  intros run. split; [|vm_compute; reflexivity].
  apply (pull_stops_before_fetch (chain_world None) 3 "origin" "release"
           initial_state).
  right. right. reflexivity.
Defined.

(** ** Termination of the collection *)

(** X22: when every parent a stored commit names lies in a finite set
    [U], a collection from a commit of [U] with more fuel than [U] has
    hashes outside the visited set returns a mapping. *)
Theorem visited_set_bounds_collect (repository : local_repository)
    (U : gset string) (fuel : nat) (commit_hash : string)
    (fetched : gset string) :
  stored_parents_within repository U ->
  commit_hash ∈ U ->
  (size (U ∖ fetched) < fuel)%nat ->
  is_Some (_get_objects_to_push repository fuel commit_hash fetched).
Proof.
  intros HU. revert commit_hash fetched.
  induction fuel as [|fuel IH]; intros h fetched Hh Hsize; [lia|]. simpl.
  case_bool_decide as Hin; [eauto|].
  destruct (load_object repository h) as [c|] eqn:Hl; [|eauto].
  assert (HP : is_Some match truthy_parent c with
                       | Some p => _get_objects_to_push repository fuel p
                                     ({[h]} ∪ fetched)
                       | None => Some (∅, {[h]} ∪ fetched)
                       end).
  { destruct (truthy_parent c) as [p|] eqn:Hp; [|eauto].
    apply IH; [exact (HU h c p Hl Hp)|].
    assert (Hsub : U ∖ ({[h]} ∪ fetched) ⊂ U ∖ fetched) by set_solver.
    apply subset_size in Hsub. lia. }
  destruct HP as [[po pf] ->].
  destruct (truthy_opt_str (tree_root c)) as [t|]; [|eauto].
  destruct (_get_tree_objects repository t pf). eauto.
Qed.

Lemma example_parents_within :
  stored_parents_within example_repository {["C1"; "C2"]}.
Proof.
  intros h c p. cbn [load_object example_repository].
  unfold local_objects, assoc.
  repeat (destruct (String.eqb h _); [intros [= <-]; cbn; intros [= <-];
                                      set_solver|]).
  discriminate.
Qed.

Lemma visited_set_bounds_collect_witness :
  is_Some (_get_objects_to_push example_repository 3 "C2" ∅).
Proof.
  apply (visited_set_bounds_collect example_repository {["C1"; "C2"]}).
  - exact example_parents_within.
  - set_solver.
  - vm_compute. lia.
Defined.
